(** * RoadCDN multi-region support: a shallow embedding of [src/multiregion.ts]

    The development follows the source file top to bottom: the data model
    (interfaces [Region], [Origin], [RoutingDecision], [ReplicationJob],
    [RegionHealthStatus]), the [MultiRegionRouter] class (region directory,
    routing, health sweep), the [CrossRegionReplicator] class and the
    [GeoCacheManager] class, followed by the theorems.

    Modelling conventions.
    - A JavaScript [number] is an IEEE 754 double.  Where the code computes
      with fractions the model does so in doubles too, with Rocq's primitive
      [float]: the weights of the origins, the value of [Math.random()] and
      the sampling arithmetic of [selectOrigin], and the percentage that
      [runReplication] rounds into [job.progress].  Counters, lengths and
      timestamps are integers in the code and [Z] here; a count enters the
      double arithmetic through [ofCount].  Latencies are millisecond
      readings; they and their averages are rationals [Q].
    - [Infinity], returned by [getAverageLatency], is a constructor of
      [jsnum].
    - [undefined] is [None].
    - The [Map<string, Region>] of the router iterates in insertion order, and
      [route] depends on that order, so it is an association list with the
      [Map.set] update written out.  The key-value namespace, the object
      bucket and the job table are only read and written by key: they are
      [gmap]s.
    - What the environment decides is an explicit input: the value of
      [Math.random()], the readings of [Date.now()], the outcome of each
      health probe, the exception (if any) thrown by each [bucket.put]. *)

From Stdlib Require Import QArith Lqa Floats Uint63.
From stdpp Require Import base strings list gmap pretty sorting.

Local Open Scope string_scope.

(** ** Data model *)

Record Origin := mkOrigin {
  o_id : string;
  url : string;
  weight : float;
  healthy : bool;
  lastCheck : Z;
  latencyMs : Q;
  consecutiveFailures : Z
}.

Record Region := mkRegion {
  r_id : string;
  r_name : string;
  code : string;
  origins : list Origin;
  priority : Z;
  countries : list string;
  fallback : option string
}.

Inductive Reason := Geo | Latency | Failover | Weighted.

Record RoutingDecision := mkDecision {
  d_region : Region;
  d_origin : option Origin;
  d_reason : Reason;
  d_fallback : bool
}.

Inductive JobStatus := Pending | Running | Completed | Failed.

Record ReplicationJob := mkJob {
  j_id : string;
  sourceRegion : string;
  targetRegions : list string;
  paths : list string;
  status : JobStatus;
  progress : Z;
  startedAt : Z;
  completedAt : option Z;
  errors : list string
}.

Record RegionHealthStatus := mkHealth {
  h_regionId : string;
  h_healthy : bool;
  availableOrigins : Z;
  totalOrigins : Z;
  avgLatencyMs : Q;
  h_lastCheck : Z
}.

(** Result of a call that may throw. *)
Inductive result (E A : Type) :=
| Ok (a : A)
| Throw (e : E).
Arguments Ok {E A} a.
Arguments Throw {E A} e.

(** ** JavaScript values used by the router *)

(** A number that may be [Infinity]. *)
Inductive jsnum :=
| Num (q : Q)
| Infinity.

Definition Qltb (a b : Q) : bool := negb (Qle_bool b a).

(** [a < b] on numbers. *)
Definition num_ltb (a b : jsnum) : bool :=
  match a, b with
  | Num x, Num y => Qltb x y
  | Num _, Infinity => true
  | Infinity, _ => false
  end.

Definition num_le (a b : jsnum) : Prop :=
  match a, b with
  | Num x, Num y => (x <= y)%Q
  | _, Infinity => True
  | Infinity, Num _ => False
  end.

(** Truthiness of an optional string: [undefined] and the empty string are
    falsy. *)
Definition truthy (s : option string) : bool :=
  match s with
  | Some EmptyString => false
  | Some _ => true
  | None => false
  end.

(** [Array.prototype.reduce] without an initial value, on a non-empty array
    given as head and tail. *)
Definition reduce1 {A} (f : A → A → A) (hd : A) (tl : list A) : A :=
  fold_left f tl hd.

(** ** Insertion-ordered [Map<string, V>] *)

Module OMap.
Section Ordered.
Context {V : Type}.

Definition t := list (string * V).

Fixpoint get (m : list (string * V)) (k : string) : option V :=
  match m with
  | [] => None
  | (k', v) :: m' => if String.eqb k k' then Some v else get m' k
  end.

(** [Map.set]: an existing key keeps its position. *)
Fixpoint set (m : list (string * V)) (k : string) (v : V)
  : list (string * V) :=
  match m with
  | [] => [(k, v)]
  | (k', v') :: m' =>
      if String.eqb k k' then (k, v) :: m' else (k', v') :: set m' k v
  end.

Definition keys (m : list (string * V)) : list string := map fst m.
Definition values (m : list (string * V)) : list V := map snd m.
End Ordered.
End OMap.

(** ** MultiRegionRouter *)

Definition Regions := list (string * Region).

Definition addRegion (regions : Regions) (region : Region) : Regions :=
  OMap.set regions (r_id region) region.

Definition findRegionByCountry (regions : Regions) (country : string)
  : option Region :=
  find (fun region => existsb (String.eqb country) (countries region))
       (OMap.values regions).

Definition isRegionHealthy (region : Region) : bool :=
  existsb healthy (origins region).

Definition getAverageLatency (region : Region) : jsnum :=
  let healthyOrigins := filter (fun o => healthy o = true) (origins region) in
  match healthyOrigins with
  | [] => Infinity
  | _ =>
      let sum := fold_left (fun s o => (s + latencyMs o)%Q) healthyOrigins 0%Q in
      Num (sum / inject_Z (Z.of_nat (length healthyOrigins)))
  end.

Definition findLowestLatencyRegion (regions : Regions) : option Region :=
  let healthyRegions :=
    filter (fun r => isRegionHealthy r = true) (OMap.values regions) in
  match healthyRegions with
  | [] => None
  | r0 :: rest =>
      Some (reduce1 (fun best current =>
                       let bestAvg := getAverageLatency best in
                       let currentAvg := getAverageLatency current in
                       if num_ltb currentAvg bestAvg then current else best)
                    r0 rest)
  end.

(** The sampling loop of [selectOrigin]: [random] is the running remainder;
    [None] means the loop ended without returning. *)
Fixpoint sampleLoop (random : float) (l : list Origin) : option Origin :=
  match l with
  | [] => None
  | origin :: rest =>
      let random := (random - weight origin)%float in
      if (random <=? 0)%float then Some origin else sampleLoop random rest
  end.

(** [l.reduce((sum, o) => sum + o.weight, 0)] *)
Definition sumWeights (l : list Origin) : float :=
  fold_left (fun sum o => (sum + weight o)%float) l 0%float.

(** [rnd] is the value returned by [Math.random()]. *)
Definition selectOrigin (region : Region) (rnd : float) : option Origin :=
  let healthyOrigins := filter (fun o => healthy o = true) (origins region) in
  match healthyOrigins with
  | [] => head (origins region)
  | [o] => Some o
  | o0 :: _ =>
      let totalWeight := sumWeights healthyOrigins in
      let random := (rnd * totalWeight)%float in
      match sampleLoop random healthyOrigins with
      | Some o => Some o
      | None => Some o0
      end
  end.

Inductive RouteError := NoHealthyRegion.

Definition errorMessage (e : RouteError) : string :=
  match e with NoHealthyRegion => "No healthy regions available" end.

(** [cf?.country || 'US'] *)
Definition requestCountry (cfCountry : option string) : string :=
  match cfCountry with
  | Some c => if truthy (Some c) then c else "US"
  | None => "US"
  end.

(** Lines 106-122 of [route]: the target region (if any) and the [fallback]
    flag, before the final check. *)
Definition resolveRegion (regions : Regions) (country : string)
  : option Region * bool :=
  let targetRegion := findRegionByCountry regions country in
  let '(targetRegion, fallback_) :=
    match targetRegion with
    | Some r =>
        if negb (isRegionHealthy r) then
          if truthy (fallback r) then
            (OMap.get regions (default "" (fallback r)), true)
          else (targetRegion, false)
        else (targetRegion, false)
    | None => (targetRegion, false)
    end in
  let targetRegion :=
    match targetRegion with
    | Some r => Some r
    | None => findLowestLatencyRegion regions
    end in
  (targetRegion, fallback_).

Definition route (regions : Regions) (cfCountry : option string) (rnd : float)
  : result RouteError RoutingDecision :=
  let country := requestCountry cfCountry in
  let '(targetRegion, fallback_) := resolveRegion regions country in
  match targetRegion with
  | None => Throw NoHealthyRegion
  | Some targetRegion =>
      let origin := selectOrigin targetRegion rnd in
      Ok {| d_region := targetRegion;
            d_origin := origin;
            d_reason := if fallback_ then Failover else Geo;
            d_fallback := fallback_ |}
  end.

(** *** Health sweep *)

(** What one [fetch] of an origin's health path did: it returned a response
    ([ok] is [response.ok], [elapsed] is [Date.now() - start]) or it threw
    (timeout, connection failure). *)
Inductive ProbeOutcome :=
| Responded (ok : bool) (elapsed : Z)
| Threw.

Record Probe := mkProbe {
  outcome : ProbeOutcome;
  checkedAt : Z   (* [Date.now()] read after the probe *)
}.

(** The environment of one sweep: the probe of the [j]-th origin of the
    [i]-th region, and the clock reading taken for the [i]-th summary. *)
Record HealthEnv := mkHealthEnv {
  probe : nat → nat → Probe;
  summaryTime : nat → Z
}.

Definition setHealth (o : Origin) (h : bool) (lat : Q) (fails : Z) : Origin :=
  {| o_id := o_id o; url := url o; weight := weight o; healthy := h;
     lastCheck := lastCheck o; latencyMs := lat;
     consecutiveFailures := fails |}.

Definition setLastCheck (o : Origin) (t : Z) : Origin :=
  {| o_id := o_id o; url := url o; weight := weight o; healthy := healthy o;
     lastCheck := t; latencyMs := latencyMs o;
     consecutiveFailures := consecutiveFailures o |}.

(** The [try]/[catch] of the inner loop body, on one origin: the updated
    origin and the increments of [healthyCount] and [totalLatency]. *)
Definition recordOutcome (origin : Origin) (out : ProbeOutcome)
  : Origin * Z * Z :=
  match out with
  | Responded ok latency =>
      if ok then
        (setHealth origin true (inject_Z latency) 0, 1, latency)%Z
      else
        let fails := (consecutiveFailures origin + 1)%Z in
        (setHealth origin (fails <? 3)%Z (inject_Z latency) fails, 0, latency)%Z
  | Threw =>
      let fails := (consecutiveFailures origin + 1)%Z in
      (setHealth origin false 9999 fails, 0, 0)%Z
  end.

(** One iteration of the inner loop. *)
Definition checkOrigin (origin : Origin) (p : Probe) : Origin * Z * Z :=
  let '(origin, dCount, dLatency) := recordOutcome origin (outcome p) in
  (setLastCheck origin (checkedAt p), dCount, dLatency).

(** The inner loop over [region.origins], from origin index [j]. *)
Fixpoint checkOrigins (probes : nat → Probe) (j : nat) (os : list Origin)
    (healthyCount totalLatency : Z) : list Origin * Z * Z :=
  match os with
  | [] => ([], healthyCount, totalLatency)
  | origin :: rest =>
      let '(origin, dCount, dLatency) := checkOrigin origin (probes j) in
      let '(rest, healthyCount, totalLatency) :=
        checkOrigins probes (S j) rest
                     (healthyCount + dCount)%Z (totalLatency + dLatency)%Z in
      (origin :: rest, healthyCount, totalLatency)
  end.

Definition setOrigins (r : Region) (os : list Origin) : Region :=
  {| r_id := r_id r; r_name := r_name r; code := code r; origins := os;
     priority := priority r; countries := countries r;
     fallback := fallback r |}.

(** The body of the outer loop for one directory entry. *)
Definition checkRegion (env : HealthEnv) (i : nat) (regionId : string)
    (region : Region) : Region * RegionHealthStatus :=
  let '(os, healthyCount, totalLatency) :=
    checkOrigins (probe env i) 0 (origins region) 0%Z 0%Z in
  (setOrigins region os,
   {| h_regionId := regionId;
      h_healthy := (0 <? healthyCount)%Z;
      availableOrigins := healthyCount;
      totalOrigins := Z.of_nat (length (origins region));
      avgLatencyMs :=
        if (0 <? healthyCount)%Z
        then (inject_Z totalLatency / inject_Z healthyCount)%Q
        else 0%Q;
      h_lastCheck := summaryTime env i |}).

Fixpoint checkRegions (env : HealthEnv) (i : nat) (regions : Regions)
  : Regions * list (string * RegionHealthStatus) :=
  match regions with
  | [] => ([], [])
  | (regionId, region) :: rest =>
      let '(region, st) := checkRegion env i regionId region in
      let '(rest, results) := checkRegions env (S i) rest in
      (* the keys of a Map are distinct, so [results.set] appends *)
      ((regionId, region) :: rest, (regionId, st) :: results)
  end.

(** *** Durable key-value namespace

    The text that [JSON.stringify] writes is kept abstract: the namespace
    holds the value that [JSON.parse] reads back from it, with the
    [expirationTtl] of the write.  Strings, booleans, integers and finite
    numbers are read back as they were written.  JSON has no notation for
    the other doubles: [-0] is written as [0], and [NaN] and the infinities
    as [null], which [selectOrigin], the only reader of a weight, adds and
    subtracts as 0. *)
Definition jsonNumber (x : float) : float :=
  match Prim2SF x with
  | S754_finite _ _ _ => x
  | _ => 0%float
  end.

Definition jsonOrigin (o : Origin) : Origin :=
  {| o_id := o_id o; url := url o; weight := jsonNumber (weight o);
     healthy := healthy o; lastCheck := lastCheck o;
     latencyMs := latencyMs o;
     consecutiveFailures := consecutiveFailures o |}.

Definition jsonRegion (r : Region) : Region :=
  {| r_id := r_id r; r_name := r_name r; code := code r;
     origins := map jsonOrigin (origins r); priority := priority r;
     countries := countries r; fallback := fallback r |}.

Inductive KVValue :=
| KVRegions (regions : list Region)
| KVJob (job : ReplicationJob)
| KVCacheEntry (body contentType etag : string) (cachedAt : Z).

Definition kv_put (kv : gmap string (KVValue * option Z)) (key : string)
    (v : KVValue) (ttl : option Z) : gmap string (KVValue * option Z) :=
  <[key := (v, ttl)]> kv.

Definition saveRegions (regions : Regions) (kv : gmap string (KVValue * option Z))
  : gmap string (KVValue * option Z) :=
  kv_put kv "cdn:regions" (KVRegions (map jsonRegion (OMap.values regions)))
         None.

Definition performHealthChecks (env : HealthEnv) (regions : Regions)
    (kv : gmap string (KVValue * option Z))
  : Regions * gmap string (KVValue * option Z)
    * list (string * RegionHealthStatus) :=
  let '(regions, results) := checkRegions env 0 regions in
  (regions, saveRegions regions kv, results).

(** ** CrossRegionReplicator *)

Record R2Object := mkObject {
  content : string;
  httpMetadata : option string;
  (* replicatedFrom, replicatedAt, replicationJobId *)
  customMetadata : option (string * Z * string)
}.

(** The environment of one run: the message of the exception thrown by the
    [n]-th [bucket.put] of the run ([None]: the write succeeds), and the
    clock reading taken for it. *)
Record ReplEnv := mkReplEnv {
  putError : nat → option string;
  putTime : nat → Z
}.

(** State threaded through the loops of [runReplication]: the bucket, the
    job object, the local [completed] and the number of writes attempted. *)
Record RunState := mkRun {
  rs_bucket : gmap string R2Object;
  rs_job : ReplicationJob;
  rs_completed : Z;
  rs_puts : nat
}.

Definition setStatus (j : ReplicationJob) (s : JobStatus) : ReplicationJob :=
  {| j_id := j_id j; sourceRegion := sourceRegion j;
     targetRegions := targetRegions j; paths := paths j; status := s;
     progress := progress j; startedAt := startedAt j;
     completedAt := completedAt j; errors := errors j |}.

Definition setProgress (j : ReplicationJob) (p : Z) : ReplicationJob :=
  {| j_id := j_id j; sourceRegion := sourceRegion j;
     targetRegions := targetRegions j; paths := paths j; status := status j;
     progress := p; startedAt := startedAt j;
     completedAt := completedAt j; errors := errors j |}.

Definition setCompletedAt (j : ReplicationJob) (t : Z) : ReplicationJob :=
  {| j_id := j_id j; sourceRegion := sourceRegion j;
     targetRegions := targetRegions j; paths := paths j; status := status j;
     progress := progress j; startedAt := startedAt j;
     completedAt := Some t; errors := errors j |}.

Definition pushError (j : ReplicationJob) (e : string) : ReplicationJob :=
  {| j_id := j_id j; sourceRegion := sourceRegion j;
     targetRegions := targetRegions j; paths := paths j; status := status j;
     progress := progress j; startedAt := startedAt j;
     completedAt := completedAt j; errors := errors j ++ [e] |}.

(** The two messages pushed on [job.errors]. *)
Definition sourceMissing (path : string) : string :=
  "Source not found: " +:+ path.

Definition writeFailure (path targetRegion message : string) : string :=
  "Failed to replicate " +:+ path +:+ " to " +:+ targetRegion +:+ ": "
  +:+ message.

(** The integer nearest to [m * 2 ^ e], halves towards [+Infinity]. *)
Definition roundHalfUp (m e : Z) : Z :=
  if (0 <=? e)%Z then (m * 2 ^ e)%Z
  else ((2 * m + 2 ^ (- e)) / 2 ^ (- e + 1))%Z.

(** [Math.round] on a double.  Its result is an integer-valued double, read
    here as the integer; [NaN] and the infinities, which it returns
    unchanged, have no integer and are read as 0: the run never rounds one
    of them, because the quotient it rounds has a positive divisor. *)
Definition Math_round (x : float) : Z :=
  match Prim2SF x with
  | S754_finite s m e => roundHalfUp (if s then Z.neg m else Z.pos m) e
  | _ => 0%Z
  end.

(** The double that holds a counter, which is never negative.  Doubles hold
    the integers up to [Number.MAX_SAFE_INTEGER = 2 ^ 53 - 1] exactly, and
    no run counts further: a larger count is taken at that value. *)
Definition ofCount (n : Z) : float :=
  of_uint63 (Uint63.of_Z (Z.min n (2 ^ 53 - 1))).

(** [Math.round((completed / totalPaths) * 100)] *)
Definition progressOf (completed totalPaths : Z) : Z :=
  Math_round ((ofCount completed / ofCount totalPaths) * 100)%float.

(** The loop over [job.targetRegions] for one source object. *)
Fixpoint replicateTargets (env : ReplEnv) (totalPaths : Z) (path : string)
    (src : R2Object) (targets : list string) (st : RunState) : RunState :=
  match targets with
  | [] => st
  | targetRegion :: rest =>
      let job := rs_job st in
      let n := rs_puts st in
      let '(bucket, job) :=
        match putError env n with
        | None =>
            (<[targetRegion +:+ "/" +:+ path :=
                 {| content := content src;
                    httpMetadata := httpMetadata src;
                    customMetadata :=
                      Some (sourceRegion job, putTime env n, j_id job) |}]>
               (rs_bucket st),
             job)
        | Some message =>
            (rs_bucket st,
             pushError job (writeFailure path targetRegion message))
        end in
      let completed := (rs_completed st + 1)%Z in
      let job := setProgress job (progressOf completed totalPaths) in
      replicateTargets env totalPaths path src rest
        {| rs_bucket := bucket; rs_job := job;
           rs_completed := completed; rs_puts := S n |}
  end.

(** The loop over [job.paths]. *)
Fixpoint replicatePaths (env : ReplEnv) (totalPaths : Z) (ps : list string)
    (st : RunState) : RunState :=
  match ps with
  | [] => st
  | path :: rest =>
      let job := rs_job st in
      match rs_bucket st !! (sourceRegion job +:+ "/" +:+ path) with
      | None =>
          replicatePaths env totalPaths rest
            {| rs_bucket := rs_bucket st;
               rs_job := pushError job (sourceMissing path);
               rs_completed := rs_completed st; rs_puts := rs_puts st |}
      | Some sourceObject =>
          replicatePaths env totalPaths rest
            (replicateTargets env totalPaths path sourceObject
                              (targetRegions job) st)
      end
  end.

Definition totalPathsOf (job : ReplicationJob) : Z :=
  (Z.of_nat (length (paths job)) * Z.of_nat (length (targetRegions job)))%Z.

(** The run from its start ([status = 'running'], [completed = 0]) through
    the paths [ps]. *)
Definition runPaths (env : ReplEnv) (bucket : gmap string R2Object)
    (job : ReplicationJob) (ps : list string) : RunState :=
  let job := setStatus job Running in
  replicatePaths env (totalPathsOf job) ps
    {| rs_bucket := bucket; rs_job := job; rs_completed := 0; rs_puts := 0 |}.

Definition replicationLoop (env : ReplEnv) (bucket : gmap string R2Object)
    (job : ReplicationJob) : RunState :=
  runPaths env bucket job (paths job).

Definition weekTtl : Z := 86400 * 7.

(** The replicator's world: namespace, bucket and in-memory job table.  The
    table holds the very object the run mutates, so the finished job is what
    [getJobStatus] then returns. *)
Record Replicator := mkReplicator {
  kv : gmap string (KVValue * option Z);
  bucket : gmap string R2Object;
  jobs : gmap string ReplicationJob
}.

(** [now] is the reading of [Date.now()] at completion. *)
Definition runReplication (env : ReplEnv) (now : Z) (w : Replicator)
    (job : ReplicationJob) : Replicator * ReplicationJob :=
  let st := replicationLoop env (bucket w) job in
  let job := rs_job st in
  let job :=
    setStatus job (if (0 <? Z.of_nat (length (errors job)))%Z
                   then Failed else Completed) in
  let job := setCompletedAt job now in
  ({| kv := kv_put (kv w) ("replication:" +:+ j_id job) (KVJob job)
                   (Some weekTtl);
      bucket := rs_bucket st;
      jobs := <[j_id job := job]> (jobs w) |},
   job).

(** The job record that [startReplication] builds: [uuid] is the value of
    [crypto.randomUUID()], [now] the reading of [Date.now()]. *)
Definition newJob (uuid : string) (now : Z) (source : string)
    (targets ps : list string) : ReplicationJob :=
  {| j_id := uuid; sourceRegion := source; targetRegions := targets;
     paths := ps; status := Pending; progress := 0; startedAt := now;
     completedAt := None; errors := [] |}.

(** What [runReplication] has done to the job when it first suspends.  The
    call is not awaited, so it runs inside [startReplication] up to its
    first [await]: the job is marked running, and that [await] is the fetch
    of the first path.  With no path the loop is skipped and the first
    [await] is the final [kv.put]: the job is then already closed, [doneAt]
    being that reading of [Date.now()], and its record not yet stored. *)
Definition runToFirstAwait (doneAt : Z) (job : ReplicationJob)
  : ReplicationJob :=
  let job := setStatus job Running in
  match paths job with
  | [] =>
      let job :=
        setStatus job (if (0 <? Z.of_nat (length (errors job)))%Z
                       then Failed else Completed) in
      setCompletedAt job doneAt
  | _ :: _ => job
  end.

(** The job table holds the object that is returned, and the run has
    already begun on it: the caller never sees the status ['pending'].  The
    rest of the run is what [runReplication] does to the pending job. *)
Definition startReplication (uuid : string) (now doneAt : Z) (w : Replicator)
    (source : string) (targets ps : list string)
  : Replicator * ReplicationJob :=
  let job := runToFirstAwait doneAt (newJob uuid now source targets ps) in
  ({| kv := kv w; bucket := bucket w; jobs := <[j_id job := job]> (jobs w) |},
   job).

Definition getJobStatus (w : Replicator) (jobId : string)
  : option ReplicationJob :=
  jobs w !! jobId.

(** ** GeoCacheManager *)

Definition getCacheKey (path region : string) : string :=
  "cache:" +:+ region +:+ ":" +:+ path.

(** ** Region presets *)

Definition preset (id name code_ : string) (cs : list string) (prio : Z)
    (fb : string) : Region :=
  {| r_id := id; r_name := name; code := code_; origins := [];
     priority := prio; countries := cs; fallback := Some fb |}.

Definition REGION_PRESETS : list Region :=
  [ preset "us-east" "US East" "us-east-1"
      ["US"; "CA"; "MX"; "CO"; "VE"; "BR"] 1 "eu-west";
    preset "us-west" "US West" "us-west-1" ["US"] 2 "us-east";
    preset "eu-west" "EU West" "eu-west-1"
      ["GB"; "IE"; "FR"; "DE"; "NL"; "BE"; "ES"; "PT"; "IT"] 1 "us-east";
    preset "eu-central" "EU Central" "eu-central-1"
      ["DE"; "AT"; "CH"; "PL"; "CZ"; "HU"; "RO"; "BG"] 2 "eu-west";
    preset "ap-southeast" "Asia Pacific Southeast" "ap-southeast-1"
      ["SG"; "MY"; "ID"; "TH"; "VN"; "PH"; "AU"; "NZ"] 1 "ap-northeast";
    preset "ap-northeast" "Asia Pacific Northeast" "ap-northeast-1"
      ["JP"; "KR"; "TW"; "HK"] 1 "ap-southeast" ].

(** The directory of [createDefaultRouter]. *)
Definition defaultRegions : Regions :=
  fold_left addRegion REGION_PRESETS [].

(** ** Example directories *)

Module Examples.

Definition origin_ (id : string) (w : float) (h : bool) (lat : Q) (fails : Z)
  : Origin :=
  {| o_id := id; url := "https://" +:+ id; weight := w; healthy := h;
     lastCheck := 0; latencyMs := lat; consecutiveFailures := fails |}.

Definition region_ (id : string) (os : list Origin) (cs : list string)
    (fb : option string) : Region :=
  {| r_id := id; r_name := id; code := id; origins := os; priority := 1;
     countries := cs; fallback := fb |}.

Definition us_east : Region :=
  preset "us-east" "US East" "us-east-1"
    ["US"; "CA"; "MX"; "CO"; "VE"; "BR"] 1 "eu-west".

Definition eu_west : Region :=
  preset "eu-west" "EU West" "eu-west-1"
    ["GB"; "IE"; "FR"; "DE"; "NL"; "BE"; "ES"; "PT"; "IT"] 1 "us-east".

(** A directory whose first region is down and names a fallback that was
    never registered; the two others are up. *)
Definition paris : Region :=
  region_ "eu" [origin_ "eu-1" 1 false 9999 3] ["FR"; "DE"] (Some "eu-backup").
Definition virginia : Region :=
  region_ "us" [origin_ "us-1" 1 true 40 0; origin_ "us-2" 3 true 60 0]
          ["US"] None.
Definition tokyo : Region :=
  region_ "ap" [origin_ "ap-1" 1 true 25 0; origin_ "ap-2" 1 false 9999 4]
          ["JP"] None.

Definition danglingRegions : Regions :=
  fold_left addRegion [paris; virginia; tokyo] [].

(** A region whose first healthy origin carries no weight. *)
Definition idle : Origin := origin_ "idle" 0 true 10 0.
Definition busy : Origin := origin_ "busy" 1 true 10 0.
Definition mixed : Region := region_ "mixed" [idle; busy] ["US"] None.

(** Four healthy origins of weights 0, 0.03, 0.24 and 0.03 (the doubles that
    JavaScript reads from these literals), and the value [1 - 2 ^ -52] of
    [Math.random()]. *)
Definition drift : Region :=
  region_ "drift"
    [origin_ "d-0" 0 true 10 0;
     origin_ "d-1" 0x1.eb851eb851eb8p-6 true 10 0;
     origin_ "d-2" 0x1.eb851eb851eb8p-3 true 10 0;
     origin_ "d-3" 0x1.eb851eb851eb8p-6 true 10 0]
    ["US"] None.
Definition almostOne : float := 0x1.ffffffffffffep-1.

(** A sweep over one region of two origins: the first answers 200 after
    10 ms, the second, which has already failed twice, answers 500 after
    30 ms. *)
Definition steady : Origin := origin_ "steady" 1 true 12 0.
Definition shaky : Origin := origin_ "shaky" 1 true 35 2.
Definition pair : Regions := [("pair", region_ "pair" [steady; shaky] ["US"] None)].
Definition slowError : HealthEnv :=
  {| probe := fun _ j =>
       match j with
       | O => {| outcome := Responded true 10; checkedAt := 1010 |}
       | _ => {| outcome := Responded false 30; checkedAt := 1040 |}
       end;
     summaryTime := fun _ => 1041%Z |}.

(** A sweep in which every probe times out. *)
Definition solo : Regions := [("solo", region_ "solo" [steady] ["US"] None)].
Definition allTimeouts : HealthEnv :=
  {| probe := fun _ _ => {| outcome := Threw; checkedAt := 6000 |};
     summaryTime := fun _ => 6001%Z |}.

(** A bucket that holds one object of region "src", and an environment in
    which no write fails. *)
Definition oneObject : Replicator :=
  {| kv := ∅;
     bucket := {[ "src/a" := {| content := "A"; httpMetadata := None;
                                customMetadata := None |} ]};
     jobs := ∅ |}.
Definition calm : ReplEnv :=
  {| putError := fun _ => None; putTime := fun _ => 500%Z |}.

(** Two objects, and an environment whose third write throws. *)
Definition twoObjects : Replicator :=
  {| kv := ∅;
     bucket := {[ "src/a" := {| content := "A"; httpMetadata := None;
                                customMetadata := None |};
                  "src/b" := {| content := "B"; httpMetadata := Some "text/css";
                                customMetadata := None |} ]};
     jobs := ∅ |}.
Definition thirdWriteFails : ReplEnv :=
  {| putError := fun n => match n with
                          | 2%nat => Some "quota exceeded"
                          | _ => None
                          end;
     putTime := fun _ => 500%Z |}.

End Examples.

(** ** Reading of the selection rule

    The remainder of the draw once the weights of the origins at positions
    [0..i] have been subtracted, in iteration order. *)
Definition remainderAt (draw : float) (l : list Origin) (i : nat) : float :=
  fold_left (fun random o => (random - weight o)%float) (take (S i) l) draw.

(** The healthy origins of a region, in iteration order, the draw that
    [selectOrigin] makes among them, and the case in which its loop ends
    without a [return]: no remainder is ≤ 0. *)
Definition healthyOrigins (region : Region) : list Origin :=
  filter (fun o => healthy o = true) (origins region).

Definition drawOf (region : Region) (rnd : float) : float :=
  (rnd * sumWeights (healthyOrigins region))%float.

Definition neverReached (region : Region) (rnd : float) : Prop :=
  ∀ k, (k < length (healthyOrigins region))%nat →
       (remainderAt (drawOf region rnd) (healthyOrigins region) k <=? 0)%float
       = false.

(** ** Reading of the progress arithmetic

    [below Mb eb e mrs]: the mantissa that the rounding of a double holds in
    the shift record [mrs] at exponent [e], taken one unit up when bits were
    shifted out of it, is at most [Mb * 2 ^ eb]. *)
Definition below (Mb eb e : Z) (mrs : shr_record) : Prop :=
  (0 <= shr_m mrs)%Z ∧
  (shr_m mrs + (if shr_r mrs || shr_s mrs then 1 else 0)
   <= Mb * 2 ^ (eb - e))%Z.

(** The mantissa of the double 100, which is [hundred * 2 ^ -46]. *)
Definition hundred : positive := 7036874417766400.

(** A double that is 0 or positive, and at most [M * 2 ^ -46]. *)
Definition atMost (M : Z) (x : spec_float) : Prop :=
  x = S754_zero false ∨
  ∃ m e, x = S754_finite false m e ∧ (e <= -46)%Z ∧
         (Z.pos m <= M * 2 ^ (-46 - e))%Z.

(** The share 0.99 taken up to the next multiple of [2 ^ -53], and 100 times
    that taken up to the next multiple of [2 ^ -46], which is
    99.00000000000001. *)
Definition share99 : Z := 8917127262193583.
Definition percent99 : Z := 6966505673588737.

(** ** Reading of the error log

    The messages the target loop records for one path when its writes are
    the attempts numbered from [n], and the messages of a whole run in which
    every source object is found. *)
Fixpoint putErrors (env : ReplEnv) (path : string) (n : nat)
    (targets : list string) : list string :=
  match targets with
  | [] => []
  | targetRegion :: rest =>
      match putError env n with
      | Some message => [writeFailure path targetRegion message]
      | None => []
      end ++ putErrors env path (S n) rest
  end.

Fixpoint allPutErrors (env : ReplEnv) (n : nat) (ps targets : list string)
  : list string :=
  match ps with
  | [] => []
  | path :: rest =>
      putErrors env path n targets
      ++ allPutErrors env (n + length targets) rest targets
  end.

(** The fields of a job that the loops never assign. *)
Definition sameJob (j j' : ReplicationJob) : Prop :=
  j_id j' = j_id j ∧ sourceRegion j' = sourceRegion j ∧
  targetRegions j' = targetRegions j ∧ paths j' = paths j ∧
  status j' = status j ∧ startedAt j' = startedAt j ∧
  completedAt j' = completedAt j.

(** [job.progress] agrees with the local [completed]. *)
Definition progressTracks (totalPaths : Z) (st : RunState) : Prop :=
  progress (rs_job st) = progressOf (rs_completed st) totalPaths.

(** ** Remaining operations of the router *)

(** What a call can throw besides the routing error: iterating a value
    that is not an array. *)
Inductive LoadError := NotIterable.

(** [loadRegions]: the record under [cdn:regions], when there is one, is
    merged into the directory entry by entry.  A record that is not an array
    (another kind of value under the key) cannot be iterated. *)
Definition loadRegions (regions : Regions)
    (kv : gmap string (KVValue * option Z)) : result LoadError Regions :=
  match kv !! "cdn:regions" with
  | None => Ok regions
  | Some (KVRegions data, _) => Ok (fold_left addRegion data regions)
  | Some (_, _) => Throw NotIterable
  end.

(** A timestamp that may be [-Infinity], the value of [Math.max()] on no
    argument. *)
Inductive jstime :=
| NegInfinity
| Time (t : Z).

(** [Math.max(...l)] *)
Definition Math_max (l : list Z) : jstime :=
  match l with
  | [] => NegInfinity
  | t :: rest => Time (fold_left Z.max rest t)
  end.

(** The [RegionHealthStatus] objects of [getHealthStatus], whose
    [lastCheck] is read off the origins. *)
Record RegionHealthView := mkView {
  v_regionId : string;
  v_healthy : bool;
  v_availableOrigins : Z;
  v_totalOrigins : Z;
  v_avgLatencyMs : Q;
  v_lastCheck : jstime
}.

Definition healthView (regionId : string) (region : Region)
  : RegionHealthView :=
  let healthyOrigins := filter (fun o => healthy o = true) (origins region) in
  let avgLatency := getAverageLatency region in
  {| v_regionId := regionId;
     v_healthy := (0 <? Z.of_nat (length healthyOrigins))%Z;
     v_availableOrigins := Z.of_nat (length healthyOrigins);
     v_totalOrigins := Z.of_nat (length (origins region));
     v_avgLatencyMs := match avgLatency with
                       | Infinity => 0%Q
                       | Num q => q
                       end;
     v_lastCheck := Math_max (map lastCheck (origins region)) |}.

Definition getHealthStatus (regions : Regions) : list RegionHealthView :=
  map (fun '(regionId, region) => healthView regionId region) regions.

(** ** Remaining operations of the replicator *)

(** [Array.prototype.sort] with the comparator
    [(a, b) => b.startedAt - a.startedAt]: the sort is stable, so its result
    is the one of any stable sort; here, insertion from the right. *)
Fixpoint insertJob (a : ReplicationJob) (l : list ReplicationJob)
  : list ReplicationJob :=
  match l with
  | [] => [a]
  | b :: rest =>
      if (startedAt b - startedAt a <=? 0)%Z
      then a :: b :: rest
      else b :: insertJob a rest
  end.

Definition sortJobs (l : list ReplicationJob) : list ReplicationJob :=
  foldr insertJob [] l.

(** The loop of [listJobs] over the key names returned by [kv.list]: a key
    with no value is skipped; [None] stands for a listed key that holds a
    value other than a job, on which the comparator is not defined. *)
Fixpoint fetchJobs (kv : gmap string (KVValue * option Z))
    (names : list string) : option (list ReplicationJob) :=
  match names with
  | [] => Some []
  | name :: rest =>
      match kv !! name with
      | None => fetchJobs kv rest
      | Some (KVJob data, _) =>
          match fetchJobs kv rest with
          | Some jobs => Some (data :: jobs)
          | None => None
          end
      | Some (_, _) => None
      end
  end.

(** [kvList prefix limit] is the answer of the namespace to
    [kv.list({ prefix, limit })]. *)
Definition listJobs (kvList : string → Z → list string)
    (kv : gmap string (KVValue * option Z)) (limit : option Z)
  : option (list ReplicationJob) :=
  let limit := default 50%Z limit in
  match fetchJobs kv (kvList "replication:" limit) with
  | Some jobs => Some (sortJobs jobs)
  | None => None
  end.

(** ** Remaining operations of the cache manager *)

Record CachedContent := mkCached {
  c_content : option string;
  c_contentType : option string;
  c_regionId : string
}.

(** [getCached]: a routing failure propagates; a value under the key that is
    not a cache entry is still truthy and yields [undefined] fields. *)
Definition getCached (regions : Regions)
    (kv : gmap string (KVValue * option Z)) (path : string)
    (cfCountry : option string) (rnd : float)
  : result RouteError (option CachedContent) :=
  match route regions cfCountry rnd with
  | Throw e => Throw e
  | Ok routing =>
      let cacheKey := getCacheKey path (r_id (d_region routing)) in
      match kv !! cacheKey with
      | None => Ok None
      | Some (KVCacheEntry body contentType _ _, _) =>
          Ok (Some {| c_content := Some body;
                      c_contentType := Some contentType;
                      c_regionId := r_id (d_region routing) |})
      | Some (_, _) =>
          Ok (Some {| c_content := None; c_contentType := None;
                      c_regionId := r_id (d_region routing) |})
      end
  end.

Definition quote : string := String (Ascii.ascii_of_nat 34) EmptyString.

(** [cache]: [etagNow] and [cachedNow] are the two readings of [Date.now()]
    (integers printed in decimal); [ttl] defaults to 3600. *)
Definition cache (kv : gmap string (KVValue * option Z))
    (path regionId content contentType : string) (ttl : option Z)
    (etagNow cachedNow : Z) : gmap string (KVValue * option Z) :=
  let ttl := default 3600%Z ttl in
  let cacheKey := getCacheKey path regionId in
  kv_put kv cacheKey
         (KVCacheEntry content contentType
                       (quote +:+ pretty etagNow +:+ quote) cachedNow)
         (Some ttl).

(** The loop of [purge] over the region ids. *)
Fixpoint purgeLoop (path : string) (ids : list string)
    (kv : gmap string (KVValue * option Z)) (purged : Z)
  : gmap string (KVValue * option Z) * Z :=
  match ids with
  | [] => (kv, purged)
  | regionId :: rest =>
      let cacheKey := getCacheKey path regionId in
      purgeLoop path rest (delete cacheKey kv) (purged + 1)%Z
  end.

Definition purge (regions : Regions) (kv : gmap string (KVValue * option Z))
    (path : string) : gmap string (KVValue * option Z) * Z :=
  purgeLoop path (OMap.keys regions) kv 0.

(** The loop of [warmCache]; [clock n] gives the two clock readings of the
    [n]-th call of [cache]. *)
Fixpoint warmLoop (clock : nat → Z * Z) (n : nat)
    (path content contentType : string) (ttl : option Z) (ids : list string)
    (kv : gmap string (KVValue * option Z))
  : gmap string (KVValue * option Z) :=
  match ids with
  | [] => kv
  | regionId :: rest =>
      warmLoop clock (S n) path content contentType ttl rest
        (cache kv path regionId content contentType
               (Some (default 3600%Z ttl)) (clock n).1 (clock n).2)
  end.

Definition warmCache (clock : nat → Z * Z) (regions : Regions)
    (kv : gmap string (KVValue * option Z))
    (path content contentType : string) (ttl : option Z)
  : gmap string (KVValue * option Z) * list string :=
  let ids := OMap.keys regions in
  (warmLoop clock 0 path content contentType ttl ids kv, ids).

(** ** Reading of the directory and of repeated probes *)

(** Every entry of the directory sits under the id of its region, and no id
    occurs twice: what [addRegion] and [loadRegions], the only writers of
    the map, maintain. *)
Definition keyedById (regions : Regions) : Prop :=
  Forall (fun kr => kr.1 = r_id kr.2) regions ∧ NoDup (OMap.keys regions).

(** A directory as it is read back from its record, and the directories
    that are read back unchanged: those whose weights JSON can write. *)
Definition jsonRegions (regions : Regions) : Regions :=
  map (fun kr => (kr.1, jsonRegion kr.2)) regions.

Definition jsonSafe (regions : Regions) : Prop :=
  Forall (fun kr =>
            Forall (fun o => jsonNumber (weight o) = weight o)
                   (origins kr.2))
         regions.

(** The origin after the probes [ps], one per sweep, in order. *)
Definition afterProbes (o : Origin) (ps : list Probe) : Origin :=
  fold_left (fun o p => (checkOrigin o p).1.1) ps o.

Definition failed (p : Probe) : Prop :=
  match outcome p with
  | Responded ok _ => ok = false
  | Threw => True
  end.

(** The fields of an origin and of a region that a sweep does not assign. *)
Definition sameOrigin (o o' : Origin) : Prop :=
  o_id o' = o_id o ∧ url o' = url o ∧ weight o' = weight o.

Definition sameRegion (r r' : Region) : Prop :=
  r_id r' = r_id r ∧ r_name r' = r_name r ∧ code r' = code r ∧
  priority r' = priority r ∧ countries r' = countries r ∧
  fallback r' = fallback r ∧ Forall2 sameOrigin (origins r) (origins r').

(** The number of a region's probes that returned an ok response. *)
Fixpoint okCount (probes : nat → Probe) (j : nat) (n : nat) : Z :=
  match n with
  | O => 0
  | S n' =>
      (match outcome (probes j) with
       | Responded true _ => 1
       | _ => 0
       end + okCount probes (S j) n')%Z
  end.

(** The latencies of a region's probes that returned a response, summed. *)
Fixpoint respondedLatency (probes : nat → Probe) (j : nat) (n : nat) : Z :=
  match n with
  | O => 0
  | S n' =>
      (match outcome (probes j) with
       | Responded _ elapsed => elapsed
       | Threw => 0
       end + respondedLatency probes (S j) n')%Z
  end.

(** The character [':'] (code 58), and the strings without it. *)
Definition colon : Ascii.ascii := Ascii.ascii_of_nat 58.

Fixpoint colonFree (s : string) : bool :=
  match s with
  | EmptyString => true
  | String c s' => negb (Ascii.eqb c colon) && colonFree s'
  end.

(** The namespace holds, under [key], a cache entry of the given content. *)
Definition holds (kv : gmap string (KVValue * option Z))
    (key content contentType : string) (ttl : Z) : Prop :=
  ∃ etag cachedAt,
    kv !! key = Some (KVCacheEntry content contentType etag cachedAt, Some ttl).


(** ** Further examples *)

Module MoreExamples.

(** A region that is down and names no fallback, next to one that is up. *)
Definition oslo : Region :=
  Examples.region_ "no" [Examples.origin_ "no-1" 2 false 9999 5;
                         Examples.origin_ "no-2" 1 false 9999 3]
                   ["NO"; "SE"] None.

Definition nordic : Regions :=
  fold_left addRegion [oslo; Examples.virginia] [].

(** Three probes in a row that fail, in two different ways. *)
Definition threeFailures : list Probe :=
  [ {| outcome := Responded false 20; checkedAt := 100 |};
    {| outcome := Threw; checkedAt := 200 |};
    {| outcome := Responded false 25; checkedAt := 300 |} ].

(** A sweep in which every probe answers 200 after 15 ms. *)
Definition allOk : HealthEnv :=
  {| probe := fun _ _ => {| outcome := Responded true 15; checkedAt := 7000 |};
     summaryTime := fun _ => 7001%Z |}.

(** Two finished jobs under their keys, and the listing of the namespace. *)
Definition early : ReplicationJob :=
  {| j_id := "a"; sourceRegion := "src"; targetRegions := ["eu"];
     paths := ["x"]; status := Completed; progress := 100; startedAt := 10;
     completedAt := Some 11%Z; errors := [] |}.
Definition late : ReplicationJob :=
  {| j_id := "b"; sourceRegion := "src"; targetRegions := ["eu"];
     paths := ["y"]; status := Failed; progress := 0; startedAt := 20;
     completedAt := Some 21%Z; errors := [sourceMissing "y"] |}.
Definition jobStore : gmap string (KVValue * option Z) :=
  {[ "replication:a" := (KVJob early, Some weekTtl);
     "replication:b" := (KVJob late, Some weekTtl) ]}.
Definition jobListing (prefix : string) (limit : Z) : list string :=
  ["replication:a"; "replication:b"].

Definition noon (n : nat) : Z * Z := (43200000, 43200001)%Z.

End MoreExamples.

(** * Properties *)

(** ** Routing *)

Section Routing.

Implicit Types (regions : Regions) (r : Region) (country : string).

Lemma isRegionHealthy_false r :
  isRegionHealthy r = false ↔ Forall (fun o => healthy o = false) (origins r).
Proof.
  unfold isRegionHealthy. induction (origins r) as [|o os IH]; simpl.
  - split; [constructor | reflexivity].
  - rewrite orb_false_iff, IH. split.
    + intros [? ?]. now constructor.
    + inversion 1; auto.
Qed.

Lemma findRegionByCountry_none regions country :
  Forall (fun r => ¬ In country (countries r)) (OMap.values regions) →
  findRegionByCountry regions country = None.
Proof.
  unfold findRegionByCountry.
  induction 1 as [|r rs Hr _ IH]; simpl; [reflexivity|].
  destruct (existsb (String.eqb country) (countries r)) eqn:E; [|exact IH].
  apply existsb_exists in E as (c & Hc & Heq).
  apply String.eqb_eq in Heq. subst c. contradiction.
Qed.

Lemma findLowestLatencyRegion_none regions :
  Forall (fun r => isRegionHealthy r = false) (OMap.values regions) →
  findLowestLatencyRegion regions = None.
Proof.
  unfold findLowestLatencyRegion. intros H.
  replace (filter (fun r => isRegionHealthy r = true) (OMap.values regions))
    with (@nil Region); [reflexivity|].
  induction H as [|r rs Hr _ IH]; [reflexivity|].
  rewrite filter_cons. destruct (decide (isRegionHealthy r = true)); [congruence|exact IH].
Qed.

(** The three ways [resolveRegion] ends. *)
Lemma resolveRegion_unmatched regions country :
  findRegionByCountry regions country = None →
  resolveRegion regions country = (findLowestLatencyRegion regions, false).
Proof. unfold resolveRegion. now intros ->. Qed.

Lemma resolveRegion_failover regions country r fid :
  findRegionByCountry regions country = Some r →
  isRegionHealthy r = false →
  fallback r = Some fid → fid ≠ "" →
  resolveRegion regions country =
    (match OMap.get regions fid with
     | Some f => Some f
     | None => findLowestLatencyRegion regions
     end, true).
Proof.
  unfold resolveRegion. intros -> -> Hfb Hne. rewrite Hfb. simpl.
  destruct fid; [congruence|]. simpl. now destruct (OMap.get _ _).
Qed.

Lemma route_resolved regions cf rnd r fb :
  resolveRegion regions (requestCountry cf) = (Some r, fb) →
  route regions cf rnd =
    Ok {| d_region := r; d_origin := selectOrigin r rnd;
          d_reason := if fb then Failover else Geo; d_fallback := fb |}.
Proof. unfold route. now intros ->. Qed.

End Routing.

(** C2. When the region found for the request country has no healthy origin
    and declares a (non-empty) fallback id under which a region is
    registered, [route] returns a decision for that fallback region, flagged
    [fallback = true] with reason ['failover'].  Nothing is assumed about the
    fallback region [f]: whatever its health and whatever its own [fallback]
    field, the decision names [f] itself, so the chain is followed one hop
    only. *)
Theorem route_failover_one_hop (regions : Regions) (cf : option string)
    (rnd : float) (r f : Region) (fid : string) :
  findRegionByCountry regions (requestCountry cf) = Some r →
  isRegionHealthy r = false →
  fallback r = Some fid → fid ≠ "" →
  OMap.get regions fid = Some f →
  route regions cf rnd =
    Ok {| d_region := f; d_origin := selectOrigin f rnd;
          d_reason := Failover; d_fallback := true |}.
Proof.
  intros Hfind Hdown Hfb Hne Hget.
  apply (route_resolved regions cf rnd f true).
  rewrite (resolveRegion_failover _ _ r fid) by assumption.
  now rewrite Hget.
Qed.

Lemma route_failover_one_hop_witness :
  route defaultRegions (Some "US") 0 =
    Ok {| d_region := Examples.eu_west;
          d_origin := selectOrigin Examples.eu_west 0;
          d_reason := Failover; d_fallback := true |}.
Proof.
  apply (route_failover_one_hop defaultRegions (Some "US") 0
           Examples.us_east Examples.eu_west "eu-west").
  - reflexivity.
  - reflexivity.
  - reflexivity.
  - discriminate.
  - reflexivity.
Defined.

(** C4. When no region serves the request country and no region of the
    directory has a healthy origin, [route] throws the "no healthy regions"
    error instead of returning a decision. *)
Theorem route_no_healthy_region (regions : Regions) (cf : option string)
    (rnd : float) :
  Forall (fun r => ¬ In (requestCountry cf) (countries r))
         (OMap.values regions) →
  Forall (fun r => isRegionHealthy r = false) (OMap.values regions) →
  route regions cf rnd = Throw NoHealthyRegion.
Proof.
  intros Hcountry Hdown. unfold route.
  rewrite resolveRegion_unmatched by now apply findRegionByCountry_none.
  now rewrite findLowestLatencyRegion_none.
Qed.

Lemma route_no_healthy_region_witness :
  route [("eu", Examples.paris)] (Some "BR") 0.5 = Throw NoHealthyRegion.
Proof.
  apply route_no_healthy_region.
  - constructor; [|constructor]. simpl. intros [H|[H|[]]]; discriminate H.
  - constructor; [|constructor]. reflexivity.
Defined.

(** C9. When the region [route] settles on has no origin at all, the region
    has no healthy origin, [route] does not throw, and the decision it
    returns carries [undefined] as its origin (the element at index 0 of the
    empty array). *)
Theorem route_empty_origins (regions : Regions) (cf : option string) (rnd : float)
    (r : Region) (fb : bool) :
  resolveRegion regions (requestCountry cf) = (Some r, fb) →
  origins r = [] →
  isRegionHealthy r = false ∧
  route regions cf rnd =
    Ok {| d_region := r; d_origin := None;
          d_reason := if fb then Failover else Geo; d_fallback := fb |}.
Proof.
  intros Hres Hnil. split.
  - unfold isRegionHealthy. now rewrite Hnil.
  - rewrite (route_resolved regions cf rnd r fb Hres).
    unfold selectOrigin. now rewrite Hnil.
Qed.

Lemma route_empty_origins_witness :
  isRegionHealthy Examples.eu_west = false ∧
  route defaultRegions (Some "US") 0.375 =
    Ok {| d_region := Examples.eu_west; d_origin := None;
          d_reason := Failover; d_fallback := true |}.
Proof.
  apply (route_empty_origins defaultRegions (Some "US") 0.375
           Examples.eu_west true); reflexivity.
Defined.

(** *** Lowest average latency *)

Section LowestLatency.

Lemma Qltb_true a b : Qltb a b = true → (a < b)%Q.
Proof.
  unfold Qltb. rewrite negb_true_iff. intros H.
  apply Qnot_le_lt. intros Hle. apply Qle_bool_iff in Hle. congruence.
Qed.

Lemma Qltb_false a b : Qltb a b = false → (b <= a)%Q.
Proof.
  unfold Qltb. rewrite negb_false_iff. apply Qle_bool_iff.
Qed.

Lemma num_le_refl a : num_le a a.
Proof. destruct a; simpl; [apply Qle_refl | exact I]. Qed.

Lemma num_le_trans a b c : num_le a b → num_le b c → num_le a c.
Proof.
  destruct a, b, c; simpl; try tauto. apply Qle_trans.
Qed.

Lemma num_ltb_true a b : num_ltb a b = true → num_le a b.
Proof.
  destruct a, b; simpl; try easy. intros H. now apply Qlt_le_weak, Qltb_true.
Qed.

Lemma num_ltb_false a b : num_ltb a b = false → num_le b a.
Proof.
  destruct a, b; simpl; try easy. apply Qltb_false.
Qed.

(** The callback handed to [reduce] by [findLowestLatencyRegion]. *)
Let pick (best current : Region) : Region :=
  if num_ltb (getAverageLatency current) (getAverageLatency best)
  then current else best.

Lemma pick_lowest best current :
  (pick best current = best ∨ pick best current = current) ∧
  num_le (getAverageLatency (pick best current)) (getAverageLatency best) ∧
  num_le (getAverageLatency (pick best current)) (getAverageLatency current).
Proof.
  unfold pick.
  destruct (num_ltb (getAverageLatency current) (getAverageLatency best)) eqn:E.
  - split; [now right|]. split; [now apply num_ltb_true | apply num_le_refl].
  - split; [now left|]. split; [apply num_le_refl | now apply num_ltb_false].
Qed.

Lemma reduce_lowest rest : ∀ r0,
  In (reduce1 pick r0 rest) (r0 :: rest) ∧
  ∀ x, In x (r0 :: rest) →
       num_le (getAverageLatency (reduce1 pick r0 rest)) (getAverageLatency x).
Proof.
  unfold reduce1. induction rest as [|c rest IH]; intros r0; simpl.
  - split; [now left|]. intros x [<-|[]]. apply num_le_refl.
  - destruct (IH (pick r0 c)) as [Hin Hle].
    destruct (pick_lowest r0 c) as (Hpick & Hb & Hc).
    split.
    + destruct Hin as [Heq|Hin]; [|now right; right].
      rewrite <- Heq. destruct Hpick as [->| ->]; [now left | now right; left].
    + intros x [<-|[<-|Hx]].
      * eapply num_le_trans; [apply Hle; now left | exact Hb].
      * eapply num_le_trans; [apply Hle; now left | exact Hc].
      * apply Hle. now right.
Qed.

Lemma findLowestLatencyRegion_some (regions : Regions) :
  Exists (fun r => isRegionHealthy r = true) (OMap.values regions) →
  ∃ best,
    findLowestLatencyRegion regions = Some best ∧
    In best (OMap.values regions) ∧
    isRegionHealthy best = true ∧
    ∀ r, In r (OMap.values regions) → isRegionHealthy r = true →
         num_le (getAverageLatency best) (getAverageLatency r).
Proof.
  intros Hex. unfold findLowestLatencyRegion.
  destruct (filter (fun r => isRegionHealthy r = true) (OMap.values regions))
    as [|r0 rest] eqn:Hf.
  - exfalso. apply Exists_exists in Hex as (r & Hr & Hup).
    assert (r ∈ filter (fun r => isRegionHealthy r = true)
                       (OMap.values regions)) as Hin
      by (apply list_elem_of_filter; split; [exact Hup | exact Hr]).
    rewrite Hf in Hin. inversion Hin.
  - destruct (reduce_lowest rest r0) as [Hin Hle].
    assert (∀ x, In x (r0 :: rest) ↔
                 isRegionHealthy x = true ∧ In x (OMap.values regions)) as Hmem.
    { intros x. rewrite <- Hf. split.
      - intros H%list_elem_of_In%list_elem_of_filter.
        destruct H as [? H%list_elem_of_In]. now split.
      - intros [? H%list_elem_of_In].
        apply list_elem_of_In, list_elem_of_filter. now split. }
    eexists. split; [reflexivity|].
    apply Hmem in Hin as [Hup Hin]. repeat split; try assumption.
    intros r Hr Hrup. apply Hle, Hmem. now split.
Qed.

End LowestLatency.

(** C3, as the code has it.  When no region serves the request country, or
    the region that serves it is down and names a fallback id under which no
    region is registered, and some region has a healthy origin, [route]
    returns a region that has a healthy origin and whose average latency over
    its healthy origins is lowest among all such regions.  The reason tag is
    ['geo'] (with [fallback = false]) only in the first case; after a fallback
    lookup that found nothing the decision is tagged ['failover'] with
    [fallback = true]. *)
Theorem route_lowest_latency (regions : Regions) (cf : option string)
    (rnd : float) :
  (findRegionByCountry regions (requestCountry cf) = None ∨
   ∃ r fid,
     findRegionByCountry regions (requestCountry cf) = Some r ∧
     isRegionHealthy r = false ∧
     fallback r = Some fid ∧ fid ≠ "" ∧
     OMap.get regions fid = None) →
  Exists (fun r => isRegionHealthy r = true) (OMap.values regions) →
  ∃ best,
    In best (OMap.values regions) ∧
    isRegionHealthy best = true ∧
    (∀ r, In r (OMap.values regions) → isRegionHealthy r = true →
          num_le (getAverageLatency best) (getAverageLatency r)) ∧
    route regions cf rnd =
      Ok {| d_region := best;
            d_origin := selectOrigin best rnd;
            d_reason :=
              match findRegionByCountry regions (requestCountry cf) with
              | None => Geo
              | Some _ => Failover
              end;
            d_fallback :=
              match findRegionByCountry regions (requestCountry cf) with
              | None => false
              | Some _ => true
              end |}.
Proof.
  intros Hcase Hex.
  destruct (findLowestLatencyRegion_some regions Hex)
    as (best & Hlow & Hin & Hup & Hmin).
  exists best. repeat split; try assumption.
  destruct Hcase as [Hnone | (r & fid & Hfind & Hdown & Hfb & Hne & Hget)].
  - rewrite Hnone.
    apply (route_resolved regions cf rnd best false).
    now rewrite resolveRegion_unmatched, Hlow.
  - rewrite Hfind.
    apply (route_resolved regions cf rnd best true).
    rewrite (resolveRegion_failover _ _ r fid) by assumption.
    now rewrite Hget, Hlow.
Qed.

Lemma route_lowest_latency_witness :
  ∃ best,
    In best (OMap.values Examples.danglingRegions) ∧
    isRegionHealthy best = true ∧
    (∀ r, In r (OMap.values Examples.danglingRegions) →
          isRegionHealthy r = true →
          num_le (getAverageLatency best) (getAverageLatency r)) ∧
    route Examples.danglingRegions (Some "FR") 0 =
      Ok {| d_region := best; d_origin := selectOrigin best 0;
            d_reason := Failover; d_fallback := true |}.
Proof.
  apply (route_lowest_latency Examples.danglingRegions (Some "FR") 0).
  - right. exists Examples.paris, "eu-backup".
    repeat split; try reflexivity. discriminate.
  - apply Exists_cons_tl, Exists_cons_hd. reflexivity.
Defined.

(** C3 as stated fails: the region serving "FR" is down and its fallback id
    names no region; the decision [route] returns is not tagged ['geo']. *)
Lemma route_dangling_fallback_not_geo :
  (∃ r fid,
     findRegionByCountry Examples.danglingRegions (requestCountry (Some "FR"))
       = Some r ∧
     isRegionHealthy r = false ∧
     fallback r = Some fid ∧ fid ≠ "" ∧
     OMap.get Examples.danglingRegions fid = None) ∧
  route Examples.danglingRegions (Some "FR") 0 =
    Ok {| d_region := Examples.tokyo;
          d_origin := Some (Examples.origin_ "ap-1" 1 true 25 0);
          d_reason := Failover; d_fallback := true |} ∧
  ¬ ∃ d, route Examples.danglingRegions (Some "FR") 0 = Ok d ∧ d_reason d = Geo.
Proof.
  split; [|split].
  - exists Examples.paris, "eu-backup".
    repeat split; try reflexivity. discriminate.
  - reflexivity.
  - intros (d & Hd & Hgeo). vm_compute in Hd. injection Hd as <-.
    discriminate Hgeo.
Qed.

(** *** Weighted selection *)

Section WeightedSelection.

(** Subtracting a weight of 0 (of either sign) does not change on which side
    of 0 the remainder lies, whatever the remainder. *)
Lemma sub_zero_leb (x w : float) :
  (w =? 0)%float = true → ((x - w) <=? 0)%float = (x <=? 0)%float.
Proof.
  rewrite FloatAxioms.eqb_spec, !FloatAxioms.leb_spec, FloatAxioms.sub_spec.
  change (Prim2SF 0) with (S754_zero false).
  destruct (Prim2SF w) as [sw|sw| |sw mw ew]; try discriminate;
    try (destruct sw; discriminate).
  intros _. destruct (Prim2SF x) as [sx|sx| |sx mx ex]; try reflexivity.
  destruct sx, sw; reflexivity.
Qed.

Lemma remainderAt_head draw o l :
  remainderAt draw (o :: l) 0 = (draw - weight o)%float.
Proof. unfold remainderAt. cbn [take fold_left]. now destruct l. Qed.

Lemma remainderAt_tail draw o l k :
  remainderAt draw (o :: l) (S k) = remainderAt (draw - weight o) l k.
Proof. reflexivity. Qed.

(** Going one position further subtracts the weight found there. *)
Lemma remainderAt_step draw l i o :
  l !! S i = Some o →
  remainderAt draw l (S i) = (remainderAt draw l i - weight o)%float.
Proof.
  intros Hi. unfold remainderAt.
  now rewrite (take_S_r l (S i) o Hi), fold_left_app.
Qed.

Lemma sampleLoop_some l : ∀ random o,
  sampleLoop random l = Some o →
  ∃ i, l !! i = Some o ∧
       (remainderAt random l i <=? 0)%float = true ∧
       ∀ k, (k < i)%nat → (remainderAt random l k <=? 0)%float = false.
Proof.
  induction l as [|x l IH]; intros random o; simpl; [discriminate|].
  destruct (random - weight x <=? 0)%float eqn:E.
  - intros [= <-]. exists 0%nat. split; [reflexivity|]. split.
    + now rewrite remainderAt_head.
    + intros k Hk. lia.
  - intros Hloop. destruct (IH _ _ Hloop) as (i & Hi & Hle & Hbefore).
    exists (S i). split; [exact Hi|]. split.
    + now rewrite remainderAt_tail.
    + intros [|k] Hk.
      * now rewrite remainderAt_head.
      * rewrite remainderAt_tail. apply Hbefore. lia.
Qed.

Lemma sampleLoop_none l : ∀ random,
  sampleLoop random l = None →
  ∀ k, (k < length l)%nat → (remainderAt random l k <=? 0)%float = false.
Proof.
  induction l as [|x l IH]; intros random; simpl; [intros _ k Hk; lia|].
  destruct (random - weight x <=? 0)%float eqn:E; [discriminate|].
  intros Hloop [|k] Hk.
  - now rewrite remainderAt_head.
  - rewrite remainderAt_tail. apply IH; [exact Hloop | lia].
Qed.

(** The loop never returns at an origin of weight 0 that is not the first,
    and returns at a first origin of weight 0 only on a draw that is ≤ 0. *)
Lemma sampleLoop_zero_weight l random i o :
  l !! i = Some o →
  (remainderAt random l i <=? 0)%float = true →
  (∀ k, (k < i)%nat → (remainderAt random l k <=? 0)%float = false) →
  (weight o =? 0)%float = true →
  i = 0%nat ∧ (random <=? 0)%float = true.
Proof.
  intros Hi Hle Hbefore Hz. destruct i as [|i].
  - split; [reflexivity|].
    destruct l as [|x l]; [discriminate|]. injection Hi as ->.
    rewrite remainderAt_head in Hle. now rewrite <- (sub_zero_leb _ _ Hz).
  - rewrite (remainderAt_step _ _ _ _ Hi), (sub_zero_leb _ _ Hz) in Hle.
    rewrite (Hbefore i) in Hle by lia. discriminate.
Qed.

End WeightedSelection.

(** C5, as the code has it, in the arithmetic of doubles.  In a region with
    at least two healthy origins, and for every value of [Math.random()],
    [selectOrigin] subtracts the weights of the healthy origins from the
    draw [Math.random() * totalWeight] in iteration order and returns the
    first origin at which the remainder is ≤ 0; when no remainder is ≤ 0 it
    returns the first healthy origin.  An origin of weight 0 is returned
    only if it is the first healthy origin, and then only on a draw that is
    ≤ 0 or on that fall-through. *)
Theorem selectOrigin_weighted (region : Region) (rnd : float) :
  (2 <= length (healthyOrigins region))%nat →
  ∃ i o,
    healthyOrigins region !! i = Some o ∧
    selectOrigin region rnd = Some o ∧
    ((remainderAt (drawOf region rnd) (healthyOrigins region) i <=? 0)%float
       = true ∧
     (∀ k, (k < i)%nat →
        (remainderAt (drawOf region rnd) (healthyOrigins region) k <=? 0)%float
          = false)
     ∨ i = 0%nat ∧ neverReached region rnd) ∧
    ((weight o =? 0)%float = true →
     i = 0%nat ∧
     ((drawOf region rnd <=? 0)%float = true ∨ neverReached region rnd)).
Proof.
  unfold neverReached, drawOf, healthyOrigins, selectOrigin.
  set (hs := filter (fun o => healthy o = true) (origins region)).
  set (draw := (rnd * sumWeights hs)%float).
  intros Hlen.
  destruct hs as [|x [|y hs']] eqn:Ehs; simpl in Hlen; try lia.
  rewrite <- Ehs in *. clear Hlen.
  destruct (sampleLoop draw hs) as [o|] eqn:Ho.
  - destruct (sampleLoop_some _ _ _ Ho) as (i & Hi & Hle & Hbefore).
    exists i, o. split; [exact Hi|]. split; [reflexivity|].
    split; [left; now split|]. intros Hz.
    destruct (sampleLoop_zero_weight _ _ _ _ Hi Hle Hbefore Hz) as [-> Hdraw].
    split; [reflexivity | now left].
  - pose proof (sampleLoop_none _ _ Ho) as Hnone.
    exists 0%nat, x. split; [now rewrite Ehs|]. split; [reflexivity|].
    split; [right; now split|]. intros _. split; [reflexivity | now right].
Qed.

Lemma selectOrigin_weighted_witness :
  ∃ i o,
    healthyOrigins Examples.mixed !! i = Some o ∧
    selectOrigin Examples.mixed 0.5 = Some o ∧
    ((remainderAt (drawOf Examples.mixed 0.5)
                  (healthyOrigins Examples.mixed) i <=? 0)%float = true ∧
     (∀ k, (k < i)%nat →
        (remainderAt (drawOf Examples.mixed 0.5)
                     (healthyOrigins Examples.mixed) k <=? 0)%float = false)
     ∨ i = 0%nat ∧ neverReached Examples.mixed 0.5) ∧
    ((weight o =? 0)%float = true →
     i = 0%nat ∧
     ((drawOf Examples.mixed 0.5 <=? 0)%float = true
      ∨ neverReached Examples.mixed 0.5)).
Proof.
  apply (selectOrigin_weighted Examples.mixed 0.5).
  unfold healthyOrigins. simpl. lia.
Defined.

(** C5 as stated fails at the draw 0: the first healthy origin of the region
    has weight 0, a healthy origin of weight 1 exists, the draw 0 lies in
    [0, totalWeight), and the origin of weight 0 is the one selected. *)
Lemma selectOrigin_zero_weight_selected :
  healthyOrigins Examples.mixed = [Examples.idle; Examples.busy] ∧
  (weight Examples.idle =? 0)%float = true ∧
  (0 <? weight Examples.busy)%float = true ∧
  (0 <=? drawOf Examples.mixed 0)%float = true ∧
  (drawOf Examples.mixed 0 <? sumWeights [Examples.idle; Examples.busy])%float
    = true ∧
  selectOrigin Examples.mixed 0 = Some Examples.idle ∧
  ¬ (∀ o, selectOrigin Examples.mixed 0 = Some o →
          (weight o =? 0)%float = false).
Proof.
  repeat split; try reflexivity.
  intros H. specialize (H Examples.idle eq_refl). discriminate H.
Qed.

(** The fall-through is met by a draw strictly between 0 and the total
    weight: the sum of the weights 0, 0.03, 0.24 and 0.03 is rounded up, the
    draw [(1 - 2 ^ -52) * totalWeight] lies below it, and the four
    subtractions leave a positive remainder.  The origin returned is the
    first one, whose weight is 0. *)
Lemma selectOrigin_falls_through_below_total :
  length (healthyOrigins Examples.drift) = 4%nat ∧
  (0 <? drawOf Examples.drift Examples.almostOne)%float = true ∧
  (drawOf Examples.drift Examples.almostOne
   <? sumWeights (healthyOrigins Examples.drift))%float = true ∧
  neverReached Examples.drift Examples.almostOne ∧
  selectOrigin Examples.drift Examples.almostOne
    = head (healthyOrigins Examples.drift) ∧
  (∃ o, selectOrigin Examples.drift Examples.almostOne = Some o ∧
        (weight o =? 0)%float = true) ∧
  (∃ o, In o (healthyOrigins Examples.drift) ∧ (0 <? weight o)%float = true).
Proof.
  split; [reflexivity|]. split; [reflexivity|]. split; [reflexivity|].
  split; [|split; [reflexivity|split]].
  - intros k _. destruct k as [|[|[|[|k]]]]; reflexivity.
  - eexists. split; reflexivity.
  - eexists. split; [right; left; reflexivity | reflexivity].
Qed.

(** ** Health sweep *)

Section HealthSweep.

(** A probe that returned a response, successful or not, leaves the origin
    with [healthy == (consecutiveFailures < 3)]. *)
Lemma checkOrigin_responded (o : Origin) (ok : bool) (elapsed t : Z) :
  let o' := (checkOrigin o {| outcome := Responded ok elapsed;
                              checkedAt := t |}).1.1 in
  healthy o' = (consecutiveFailures o' <? 3)%Z ∧ lastCheck o' = t.
Proof.
  unfold checkOrigin. simpl. destruct ok; simpl; split; reflexivity.
Qed.

(** A probe that threw marks the origin unhealthy at once, whatever the
    counter. *)
Lemma checkOrigin_threw (o : Origin) (t : Z) :
  let o' := (checkOrigin o {| outcome := Threw; checkedAt := t |}).1.1 in
  healthy o' = false ∧
  consecutiveFailures o' = (consecutiveFailures o + 1)%Z ∧
  lastCheck o' = t.
Proof. unfold checkOrigin. simpl. repeat split. Qed.

End HealthSweep.

(** C1 on the code: a first timeout.  The origin enters the sweep healthy
    with no failure recorded; its probe throws; the sweep leaves it with one
    consecutive failure, which is below 3, and yet unhealthy. *)
Lemma timeout_skips_debounce :
  healthy Examples.steady = true ∧
  consecutiveFailures Examples.steady = 0%Z ∧
  ∃ o',
    (performHealthChecks Examples.allTimeouts Examples.solo ∅).1.1
      = [("solo", Examples.region_ "solo" [o'] ["US"] None)] ∧
    consecutiveFailures o' = 1%Z ∧
    (consecutiveFailures o' <? 3)%Z = true ∧
    healthy o' = false.
Proof.
  split; [reflexivity|]. split; [reflexivity|].
  eexists. split; [reflexivity|]. repeat split.
Qed.

(** C7 on the code: an origin found unhealthy still adds to the sum.  The
    first origin answers 200 after 10 ms; the second answers 500 after 30 ms
    and becomes unhealthy on this third failure.  The summary counts one
    available origin and reports 40 ms, the sum of both latencies over that
    one origin, whereas the average over the healthy origins of the updated
    region, as [getAverageLatency] computes it, is 10 ms. *)
Lemma summary_counts_unhealthy_latency :
  ∃ regions' kv' st o1 o2,
    performHealthChecks Examples.slowError Examples.pair ∅
      = (regions', kv', [("pair", st)]) ∧
    regions' = [("pair", Examples.region_ "pair" [o1; o2] ["US"] None)] ∧
    healthy o1 = true ∧ (latencyMs o1 == 10)%Q ∧
    healthy o2 = false ∧ (latencyMs o2 == 30)%Q ∧
    availableOrigins st = 1%Z ∧
    (avgLatencyMs st == 40)%Q ∧
    getAverageLatency (Examples.region_ "pair" [o1; o2] ["US"] None) = Num 10.
Proof.
  do 5 eexists. split; [reflexivity|]. split; [reflexivity|].
  repeat split.
Qed.

(** ** Replication *)

(** The percentage [Math.round((completed / totalPaths) * 100)] is followed
    through the specification of the doubles ([SpecFloat]): the division and
    the multiplication each round to nearest, ties to even. *)
Section Rounding.

Local Open Scope Z_scope.

(** The number of bits of a mantissa. *)
Lemma digits2_size p : digits2_pos p = Pos.size p.
Proof. induction p as [p IH|p IH|]; simpl; congruence. Qed.

Lemma Zdigits2_log2 p : Z.pos (digits2_pos p) = Z.log2 (Z.pos p) + 1.
Proof.
  rewrite digits2_size. destruct p as [p|p|]; simpl; try reflexivity;
    rewrite Pos2Z.inj_succ; lia.
Qed.

Lemma fexp_eq e : fexp prec emax e = Z.max (e - 53) (-1074).
Proof. reflexivity. Qed.

(** An invariant indexed by the exponent holds along the right shifts. *)
Lemma iter_pos_ind {A} (f : A → A) (I : Z → A → Prop) :
  (∀ k x, I k x → I (k + 1) (f x)) →
  ∀ p k x, I k x → I (k + Z.pos p) (SpecFloat.iter_pos f p x).
Proof.
  intros Hstep. induction p as [p IH|p IH|]; intros k x Hx; simpl.
  - replace (k + Z.pos p~1) with (k + 1 + Z.pos p + Z.pos p) by lia.
    apply IH, IH, Hstep, Hx.
  - replace (k + Z.pos p~0) with (k + Z.pos p + Z.pos p) by lia.
    apply IH, IH, Hx.
  - apply Hstep, Hx.
Qed.

Section Below.

(** A bound [Mb * 2 ^ eb] that lies on the grid of the doubles of its size. *)
Variables Mb eb : Z.
Hypothesis Mb_pos : 0 < Mb.
Hypothesis eb_grid : fexp prec emax (Z.log2 Mb + 1 + eb) <= eb.
Hypothesis eb_max : eb <= 971.

Lemma shr_1_below e mrs :
  e + 1 <= eb → below Mb eb e mrs → below Mb eb (e + 1) (shr_1 mrs).
Proof.
  intros He [H0 Hle]. unfold below in *.
  replace (eb - e) with (Z.succ (eb - (e + 1))) in Hle by lia.
  rewrite Z.pow_succ_r in Hle by lia.
  set (K := Mb * 2 ^ (eb - (e + 1))) in *.
  replace (Mb * (2 * 2 ^ (eb - (e + 1)))) with (2 * K) in Hle
    by (unfold K; lia).
  clearbody K.
  destruct mrs as [m r s]. cbn [shr_m shr_r shr_s] in *.
  destruct m as [|[p|p|]|]; cbn [shr_1 shr_m shr_r shr_s orb];
    try lia; destruct r, s; cbn [orb] in *; lia.
Qed.

Lemma shr_below mrs e n :
  e <= eb → e + n <= eb → below Mb eb e mrs →
  (shr mrs e n).2 <= eb ∧ below Mb eb (shr mrs e n).2 (shr mrs e n).1.
Proof.
  intros He Hn Hb. destruct n as [|p|p]; cbn [shr fst snd]; auto.
  split; [exact Hn|].
  apply (iter_pos_ind shr_1 (fun k x => k <= eb → below Mb eb k x)); auto.
  intros k x Hx Hk. apply shr_1_below; [exact Hk | apply Hx; lia].
Qed.

Lemma Zdigits2_below m e :
  0 <= m → e <= eb → m <= Mb * 2 ^ (eb - e) →
  fexp prec emax (Zdigits2 m + e) <= eb.
Proof.
  intros H0 He Hm. rewrite fexp_eq in *.
  destruct m as [|p|p]; [cbn [Zdigits2]; lia| |lia].
  cbn [Zdigits2]. rewrite Zdigits2_log2.
  assert (Z.log2 (Z.pos p) <= Z.log2 Mb + (eb - e)); [|lia].
  rewrite Z.add_comm, <- Z.log2_mul_pow2 by lia.
  apply Z.log2_le_mono. exact Hm.
Qed.

Lemma shr_fexp_below m e l :
  0 <= m → e <= eb →
  m + (match l with loc_Exact => 0 | _ => 1 end) <= Mb * 2 ^ (eb - e) →
  (shr_fexp prec emax m e l).2 <= eb ∧
  below Mb eb (shr_fexp prec emax m e l).2 (shr_fexp prec emax m e l).1.
Proof.
  intros H0 He Hm. unfold shr_fexp. apply shr_below; [exact He| |].
  - assert (fexp prec emax (Zdigits2 m + e) <= eb); [|lia].
    apply Zdigits2_below; auto. destruct l; lia.
  - split; destruct l as [|[]]; cbn [shr_record_of_loc shr_m shr_r shr_s orb];
      lia.
Qed.

Lemma round_nearest_even_below e mrs :
  below Mb eb e mrs →
  0 <= round_nearest_even (shr_m mrs) (loc_of_shr_record mrs)
    <= Mb * 2 ^ (eb - e).
Proof.
  intros [H0 Hle]. destruct mrs as [m [] []];
    cbn [loc_of_shr_record round_nearest_even shr_m shr_r shr_s orb] in *;
    try destruct (Z.even m); lia.
Qed.

(** Rounding to nearest never crosses the bound. *)
Lemma binary_round_aux_below m e l :
  0 <= m → e <= eb →
  m + (match l with loc_Exact => 0 | _ => 1 end) <= Mb * 2 ^ (eb - e) →
  binary_round_aux prec emax false m e l = S754_zero false ∨
  ∃ m' e', binary_round_aux prec emax false m e l = S754_finite false m' e' ∧
           e' <= eb ∧ Z.pos m' <= Mb * 2 ^ (eb - e').
Proof.
  intros H0 He Hm. unfold binary_round_aux.
  destruct (shr_fexp_below m e l H0 He Hm) as [He1 Hb1].
  destruct (shr_fexp prec emax m e l) as [mrs1 e1]. cbn [fst snd] in *.
  pose proof (round_nearest_even_below e1 mrs1 Hb1) as [Hr0 Hr].
  set (m2 := round_nearest_even (shr_m mrs1) (loc_of_shr_record mrs1)) in *.
  assert (m2 + 0 <= Mb * 2 ^ (eb - e1)) as Hm2 by lia.
  destruct (shr_fexp_below m2 e1 loc_Exact Hr0 He1 Hm2) as [He2 [H20 Hb2]].
  destruct (shr_fexp prec emax m2 e1 loc_Exact) as [mrs2 e2].
  cbn [fst snd] in *.
  destruct (shr_m mrs2) as [|p|p]; [now left| |lia].
  right. exists p, e2. split; [|split; [exact He2|]].
  - replace (e2 <=? emax - prec) with true; [reflexivity|].
    symmetry. apply Z.leb_le. change (emax - prec) with 971. lia.
  - destruct (shr_r mrs2 || shr_s mrs2); lia.
Qed.

End Below.

Lemma iter_xO p k : Z.pos (Pos.iter xO p k) = Z.pos p * 2 ^ Z.pos k.
Proof.
  induction k as [|k IH] using Pos.peano_ind.
  - cbn [Pos.iter]. lia.
  - rewrite Pos.iter_succ, Pos2Z.inj_xO, IH, Pos2Z.inj_succ, Z.pow_succ_r
      by lia.
    lia.
Qed.

(** A mantissa of 53 bits is left as it is. *)
Lemma binary_round_aux_canonical m e :
  Z.pos (digits2_pos m) = 53 → -1074 <= e <= 971 →
  binary_round_aux prec emax false (Z.pos m) e loc_Exact
  = S754_finite false m e.
Proof.
  intros Hd He. unfold binary_round_aux, shr_fexp. cbn [Zdigits2]. rewrite Hd.
  replace (fexp prec emax (53 + e) - e) with 0 by (rewrite fexp_eq; lia).
  cbn [shr shr_record_of_loc shr_m loc_of_shr_record round_nearest_even
       Zdigits2].
  rewrite Hd.
  replace (fexp prec emax (53 + e) - e) with 0 by (rewrite fexp_eq; lia).
  cbn [shr shr_record_of_loc shr_m].
  replace (e <=? emax - prec) with true; [reflexivity|].
  symmetry. apply Z.leb_le. change (emax - prec) with 971. lia.
Qed.

(** The double of a count: 53 bits of mantissa, holding the count exactly. *)
Lemma ofCount_finite n :
  1 <= n →
  ∃ m e, Prim2SF (ofCount n) = S754_finite false m e ∧
         Z.pos (digits2_pos m) = 53 ∧ -52 <= e <= 0 ∧
         Z.pos m = Z.min n (2 ^ 53 - 1) * 2 ^ (- e).
Proof.
  intros Hn. unfold ofCount.
  assert (1 <= Z.min n (2 ^ 53 - 1) <= 2 ^ 53 - 1) as Hn' by lia.
  generalize dependent (Z.min n (2 ^ 53 - 1)). clear n Hn. intros n Hn.
  rewrite of_uint63_spec, Uint63.of_Z_spec.
  rewrite Z.mod_small by (change wB with (2 ^ 63); lia).
  destruct n as [|p|p]; [lia| |lia].
  cbn [binary_normalize]. unfold binary_round.
  assert (1 <= Z.pos (digits2_pos p) <= 53) as Hd.
  { rewrite Zdigits2_log2.
    pose proof (Z.log2_nonneg (Z.pos p)).
    assert (Z.log2 (Z.pos p) < 53); [|lia].
    apply Z.log2_lt_pow2; lia. }
  unfold shl_align.
  replace (fexp prec emax (Z.pos (digits2_pos p) + 0) - 0)
    with (Z.pos (digits2_pos p) - 53) by (rewrite fexp_eq; lia).
  replace (fexp prec emax (Z.pos (digits2_pos p) + 0))
    with (Z.pos (digits2_pos p) - 53) by (rewrite fexp_eq; lia).
  destruct (Z.pos (digits2_pos p) - 53) as [|k|k] eqn:Ek; [|lia|].
  - exists p, 0. rewrite binary_round_aux_canonical by lia.
    repeat split; lia.
  - assert (Z.pos (digits2_pos (Pos.iter xO p k)) = 53) as Hd'.
    { rewrite Zdigits2_log2, iter_xO, Z.log2_mul_pow2 by lia.
      rewrite Zdigits2_log2 in Ek. lia. }
    exists (Pos.iter xO p k), (Z.neg k).
    rewrite binary_round_aux_canonical by lia.
    repeat split; try lia. rewrite iter_xO. reflexivity.
Qed.

(** The location of the exact quotient between two neighbouring mantissas:
    exact when the remainder is 0. *)
Lemma div_eucl_eq a b : Z.div_eucl a b = (a / b, a mod b).
Proof. unfold Z.div, Z.modulo. now destruct (Z.div_eucl a b). Qed.

Lemma new_location_inexact n r q K :
  q + (if r =? 0 then 0 else 1) <= K →
  q + (match new_location n r with loc_Exact => 0 | _ => 1 end) <= K.
Proof.
  unfold new_location, new_location_even, new_location_odd.
  destruct (Z.even n), (r =? 0); auto.
Qed.

(** The quotient of two counts, before it is rounded. *)
Lemma SFdiv_core_counts m1 e1 m2 e2 :
  Z.pos (digits2_pos m1) = 53 → Z.pos (digits2_pos m2) = 53 →
  -52 <= e1 <= 0 → -52 <= e2 <= 0 →
  SFdiv_core_binary prec emax (Z.pos m1) e1 (Z.pos m2) e2 =
    ((Z.pos m1 * 2 ^ 53) / Z.pos m2, e1 - e2 - 53,
     new_location (Z.pos m2) ((Z.pos m1 * 2 ^ 53) mod Z.pos m2)).
Proof.
  intros Hd1 Hd2 He1 He2. unfold SFdiv_core_binary. cbn [Zdigits2].
  rewrite Hd1, Hd2.
  replace (Z.min (fexp prec emax (53 + e1 - (53 + e2))) (e1 - e2))
    with (e1 - e2 - 53) by (rewrite fexp_eq; lia).
  replace (e1 - e2 - (e1 - e2 - 53)) with 53 by lia.
  cbv iota. rewrite Z.shiftl_mul_pow2 by lia. now rewrite div_eucl_eq.
Qed.

Lemma Prim2SF_100 : Prim2SF 100 = S754_finite false hundred (-46).
Proof. reflexivity. Qed.

Lemma digits53_bounds m :
  Z.pos (digits2_pos m) = 53 → 2 ^ 52 <= Z.pos m < 2 ^ 53.
Proof.
  rewrite Zdigits2_log2. intros Hd.
  pose proof (Z.log2_spec (Z.pos m) ltac:(lia)) as H.
  replace (Z.log2 (Z.pos m)) with 52 in H by lia. exact H.
Qed.

(** The quotient of two counts stays at or below a bound [Mb * 2 ^ eb] of
    the grid that their exact quotient does not exceed. *)
Lemma quotient_below Mb eb completed totalPaths :
  0 < Mb → fexp prec emax (Z.log2 Mb + 1 + eb) <= eb → -53 <= eb <= 0 →
  1 <= completed <= totalPaths →
  Z.min completed (2 ^ 53 - 1) * 2 ^ (- eb)
    <= Mb * Z.min totalPaths (2 ^ 53 - 1) →
  Prim2SF (ofCount completed / ofCount totalPaths)%float = S754_zero false ∨
  ∃ m e,
    Prim2SF (ofCount completed / ofCount totalPaths)%float
      = S754_finite false m e ∧
    e <= eb ∧ Z.pos m <= Mb * 2 ^ (eb - e).
Proof.
  intros HMb Hgrid Heb Hc Hshare.
  destruct (ofCount_finite completed ltac:(lia))
    as (m1 & e1 & H1 & Hd1 & He1 & Hm1).
  destruct (ofCount_finite totalPaths ltac:(lia))
    as (m2 & e2 & H2 & Hd2 & He2 & Hm2).
  rewrite FloatAxioms.div_spec, H1, H2. cbn [SF64div SFdiv xorb].
  rewrite SFdiv_core_counts by assumption.
  set (c := Z.min completed (2 ^ 53 - 1)) in *.
  set (t := Z.min totalPaths (2 ^ 53 - 1)) in *.
  assert (1 <= c <= t) as Hct by (unfold c, t; lia).
  (* the smaller count has the smaller exponent *)
  assert (e1 <= e2) as He12.
  { destruct (Z.le_gt_cases e1 e2) as [|Hgt]; [assumption|exfalso].
    pose proof (digits53_bounds m1 Hd1) as B1.
    pose proof (digits53_bounds m2 Hd2) as B2.
    rewrite Hm1 in B1. rewrite Hm2 in B2.
    replace (- e2) with (- e1 + (e1 - e2)) in B2 by lia.
    rewrite Z.pow_add_r in B2 by lia.
    assert (2 <= 2 ^ (e1 - e2))
      by (change 2 with (2 ^ 1) at 1; apply Z.pow_le_mono_r; lia).
    assert (0 < 2 ^ (- e1)) as HA by (apply Z.pow_pos_nonneg; lia).
    assert (c * 2 ^ (- e1) <= t * 2 ^ (- e1)) as Hmono
      by (apply Z.mul_le_mono_nonneg_r; lia).
    rewrite Z.mul_assoc in B2.
    generalize dependent (c * 2 ^ (- e1)).
    generalize dependent (t * 2 ^ (- e1)).
    generalize dependent (2 ^ (e1 - e2)).
    intros. nia. }
  set (q := Z.pos m1 * 2 ^ 53 / Z.pos m2).
  set (r := (Z.pos m1 * 2 ^ 53) mod Z.pos m2).
  assert (0 <= q) as Hq by (apply Z.div_pos; lia).
  assert (q + (if r =? 0 then 0 else 1)
          <= Mb * 2 ^ (eb - (e1 - e2 - 53))) as Hle.
  { pose proof (Z.div_mod (Z.pos m1 * 2 ^ 53) (Z.pos m2) ltac:(lia)) as Hdm.
    pose proof (Z.mod_pos_bound (Z.pos m1 * 2 ^ 53) (Z.pos m2) ltac:(lia))
      as Hr.
    fold q r in Hdm, Hr.
    assert (Z.pos m1 * 2 ^ 53
            <= Z.pos m2 * (Mb * 2 ^ (eb - (e1 - e2 - 53)))) as Hval.
    { rewrite Hm1, Hm2.
      replace (2 ^ 53) with (2 ^ (- eb) * 2 ^ (eb + 53))
        by (rewrite <- Z.pow_add_r by lia; f_equal; lia).
      replace (eb - (e1 - e2 - 53)) with (e2 - e1 + (eb + 53)) by lia.
      replace (- e1) with (- e2 + (e2 - e1)) by lia.
      rewrite (Z.pow_add_r 2 (- e2) (e2 - e1)),
        (Z.pow_add_r 2 (e2 - e1) (eb + 53)) by lia.
      assert (0 <= 2 ^ (- e2) * 2 ^ (e2 - e1) * 2 ^ (eb + 53)) as Hpos
        by (repeat apply Z.mul_nonneg_nonneg; apply Z.pow_nonneg; lia).
      pose proof (Z.mul_le_mono_nonneg_r _ _ _ Hpos Hshare) as Hmul.
      generalize dependent (2 ^ (- e2)).
      generalize dependent (2 ^ (e2 - e1)).
      generalize dependent (2 ^ (eb + 53)).
      generalize dependent (2 ^ (- eb)).
      intros. lia. }
    rewrite Hdm in Hval. clear Hdm.
    assert (0 < Mb * 2 ^ (eb - (e1 - e2 - 53))) as HK
      by (apply Z.mul_pos_pos; [lia | apply Z.pow_pos_nonneg; lia]).
    generalize dependent (Mb * 2 ^ (eb - (e1 - e2 - 53))). intros K Hval HK.
    destruct (Z.eqb_spec r 0); nia. }
  apply new_location_inexact with (n := Z.pos m2) in Hle.
  apply (binary_round_aux_below Mb eb HMb Hgrid ltac:(lia)
           q (e1 - e2 - 53) (new_location (Z.pos m2) r) Hq ltac:(lia) Hle).
Qed.

(** Times 100, a double at or below [Mb * 2 ^ eb] stays at or below a bound
    [M * 2 ^ -46] of the grid that the exact product does not exceed. *)
Lemma times_100_atMost Mb eb M x :
  0 < M → fexp prec emax (Z.log2 M + 1 + -46) <= -46 →
  eb <= 0 → Mb * Z.pos hundred <= M * 2 ^ (- eb) →
  (Prim2SF x = S754_zero false ∨
   ∃ m e, Prim2SF x = S754_finite false m e ∧
          e <= eb ∧ Z.pos m <= Mb * 2 ^ (eb - e)) →
  atMost M (Prim2SF (x * 100)%float).
Proof.
  intros HM Hgrid Heb Hprod Hx.
  rewrite FloatAxioms.mul_spec, Prim2SF_100.
  destruct Hx as [->|(m & e & -> & He & Hm)]; [now left|].
  cbn [SF64mul SFmul xorb].
  assert (Z.pos (m * hundred) + 0 <= M * 2 ^ (-46 - (e + -46))) as Hle.
  { replace (-46 - (e + -46)) with (- eb + (eb - e)) by lia.
    rewrite Pos2Z.inj_mul, Z.pow_add_r by lia.
    assert (0 < 2 ^ (eb - e)) by (apply Z.pow_pos_nonneg; lia).
    generalize dependent (2 ^ (eb - e)). generalize dependent (2 ^ (- eb)).
    intros. nia. }
  destruct (binary_round_aux_below M (-46) HM Hgrid ltac:(lia)
              (Z.pos (m * hundred)) (e + -46) loc_Exact
              ltac:(lia) ltac:(lia) Hle)
    as [->|(m' & e' & -> & He' & Hm')]; [now left|].
  right. exists m', e'. now split.
Qed.

(** [Math.round] of such a double is at most [R] when the bound lies below
    [R + 1/2]. *)
Lemma Math_round_atMost M R x :
  0 <= R → 2 * M < (2 * R + 1) * 2 ^ 46 →
  atMost M (Prim2SF x) → 0 <= Math_round x <= R.
Proof.
  unfold Math_round.
  intros HR HMR [->|(m & e & -> & He & Hm)]; [lia|].
  unfold roundHalfUp. destruct (Z.leb_spec 0 e) as [|_]; [lia|].
  replace (- e) with (46 + (-46 - e)) by lia.
  replace (46 + (-46 - e) + 1) with (Z.succ (46 + (-46 - e))) by lia.
  rewrite Z.pow_succ_r, Z.pow_add_r by lia.
  assert (0 < 2 ^ (-46 - e)) as HP by (apply Z.pow_pos_nonneg; lia).
  generalize dependent (2 ^ (-46 - e)). intros P Hm HP.
  assert (0 < 2 ^ 46 * P) as HQ by (apply Z.mul_pos_pos; lia).
  split.
  - apply Z.div_pos; lia.
  - assert ((2 * Z.pos m + 2 ^ 46 * P) / (2 * (2 ^ 46 * P)) < R + 1); [|lia].
    apply Z.div_lt_upper_bound; [lia|]. nia.
Qed.

Lemma progressOf_zero totalPaths : progressOf 0 totalPaths = 0.
Proof.
  unfold progressOf, Math_round.
  rewrite FloatAxioms.mul_spec, FloatAxioms.div_spec.
  change (Prim2SF (ofCount 0)) with (S754_zero false).
  destruct (Prim2SF (ofCount totalPaths)) as [s|s| |s m e]; reflexivity.
Qed.

(** The percentage is the one the doubles give: [(23 / 40) * 100] is
    57.49999999999999 and rounds to 57, where 57.5 would round to 58. *)
Lemma progressOf_doubles :
  progressOf 23 40 = 57 ∧ progressOf 29 200 = 14 ∧ progressOf 57 200 = 28 ∧
  progressOf 113 200 = 56 ∧ progressOf 1 8 = 13 ∧ progressOf 249 250 = 100.
Proof. repeat split; reflexivity. Qed.

Lemma progressOf_range completed totalPaths :
  0 <= completed <= totalPaths →
  0 <= progressOf completed totalPaths <= 100.
Proof.
  intros [Hlo Hhi]. destruct (Z.eq_dec completed 0) as [->|Hne].
  - rewrite progressOf_zero. lia.
  - unfold progressOf. apply (Math_round_atMost (Z.pos hundred));
      [lia | reflexivity |].
    apply (times_100_atMost 1 0);
      [reflexivity | vm_compute; discriminate | lia | reflexivity |].
    apply quotient_below; [lia | vm_compute; discriminate | lia | lia | lia].
Qed.

(** While at most 99 in 100 of the writes are completed, the progress is
    below 100. *)
Lemma progressOf_below_100 completed totalPaths :
  0 <= completed → totalPaths <= 2 ^ 53 - 1 →
  100 * completed <= 99 * totalPaths →
  0 <= progressOf completed totalPaths <= 99.
Proof.
  intros Hlo Hhi Hshare. destruct (Z.eq_dec completed 0) as [->|Hne].
  - rewrite progressOf_zero. lia.
  - unfold progressOf. apply (Math_round_atMost percent99); [lia | reflexivity |].
    apply (times_100_atMost share99 (-53));
      [reflexivity | vm_compute; discriminate | lia | vm_compute; discriminate |].
    apply quotient_below;
      [reflexivity | vm_compute; discriminate | lia | lia |].
    rewrite !Z.min_l by lia. unfold share99.
    change (2 ^ (- -53)) with 9007199254740992. lia.
Qed.

Lemma new_location_exact n : new_location n 0 = loc_Exact.
Proof. unfold new_location. now destruct (Z.even n). Qed.

(** A count divided by itself is the double 1. *)
Lemma ofCount_div_self n : 1 <= n → (ofCount n / ofCount n)%float = 1%float.
Proof.
  intros Hn. apply Prim2SF_inj. rewrite FloatAxioms.div_spec.
  destruct (ofCount_finite n Hn) as (m & e & -> & Hd & He & _).
  cbn [SF64div SFdiv xorb]. rewrite SFdiv_core_counts by assumption.
  rewrite Z.mul_comm, Z.div_mul, Z.mod_mul, new_location_exact by lia.
  replace (e - e - 53) with (-53) by lia. reflexivity.
Qed.

Lemma progressOf_full totalPaths :
  0 < totalPaths → progressOf totalPaths totalPaths = 100.
Proof.
  intros Hpos. unfold progressOf. rewrite ofCount_div_self by lia. reflexivity.
Qed.

End Rounding.

Section Loops.

Context (env : ReplEnv) (totalPaths : Z).

Lemma sameJob_refl j : sameJob j j.
Proof. repeat split. Qed.

Lemma sameJob_trans j1 j2 j3 : sameJob j1 j2 → sameJob j2 j3 → sameJob j1 j3.
Proof.
  unfold sameJob. intros (?&?&?&?&?&?&?) (?&?&?&?&?&?&?).
  repeat split; congruence.
Qed.

(** The loop over the targets: one write attempted, counted and reflected
    in the progress for every target, an error for every write that
    threw, nothing removed from the bucket. *)
Lemma replicateTargets_spec path src targets : ∀ st,
  sameJob (rs_job st)
          (rs_job (replicateTargets env totalPaths path src targets st)) ∧
  rs_completed (replicateTargets env totalPaths path src targets st)
    = (rs_completed st + Z.of_nat (length targets))%Z ∧
  rs_puts (replicateTargets env totalPaths path src targets st)
    = (rs_puts st + length targets)%nat ∧
  errors (rs_job (replicateTargets env totalPaths path src targets st))
    = (errors (rs_job st) ++ putErrors env path (rs_puts st) targets)%list ∧
  (progressTracks totalPaths st →
   progressTracks totalPaths
                  (replicateTargets env totalPaths path src targets st)) ∧
  (∀ k, is_Some (rs_bucket st !! k) →
        is_Some (rs_bucket
                   (replicateTargets env totalPaths path src targets st) !! k)).
Proof.
  induction targets as [|t ts IH]; intros st.
  - simpl. rewrite app_nil_r. repeat split; auto; lia.
  - cbn [replicateTargets putErrors length].
    destruct (putError env (rs_puts st)) as [message|] eqn:E;
      match goal with
      | |- context [replicateTargets _ _ _ _ ts ?s] =>
          destruct (IH s) as (Hsame & Hdone & Hputs & Herr & Htrack & Hmono)
      end;
      cbn [rs_job rs_completed rs_puts rs_bucket] in *.
    + split; [eapply sameJob_trans; [|exact Hsame]; repeat split|].
      split; [lia|]. split; [lia|].
      split; [rewrite Herr; cbn [errors setProgress pushError];
              now rewrite <- app_assoc|].
      split; [intros _; apply Htrack; reflexivity|].
      intros k Hk. now apply Hmono.
    + split; [eapply sameJob_trans; [|exact Hsame]; repeat split|].
      split; [lia|]. split; [lia|].
      split; [rewrite Herr; reflexivity|].
      split; [intros _; apply Htrack; reflexivity|].
      intros k Hk. apply Hmono.
      destruct (decide (t +:+ "/" +:+ path = k)) as [<-|Hne].
      * rewrite lookup_insert_eq. eauto.
      * now rewrite lookup_insert_ne.
Qed.

Lemma replicatePaths_app ps1 ps2 : ∀ st,
  replicatePaths env totalPaths (ps1 ++ ps2) st
  = replicatePaths env totalPaths ps2 (replicatePaths env totalPaths ps1 st).
Proof.
  induction ps1 as [|p ps1 IH]; intros st; [reflexivity|].
  cbn [app replicatePaths].
  destruct (rs_bucket st !! _); apply IH.
Qed.

(** The loop over the paths: at most one completed write per path and
    target, errors only added, nothing removed from the bucket. *)
Lemma replicatePaths_spec ps : ∀ st,
  sameJob (rs_job st) (rs_job (replicatePaths env totalPaths ps st)) ∧
  (rs_completed st <= rs_completed (replicatePaths env totalPaths ps st)
   <= rs_completed st
      + Z.of_nat (length ps) * Z.of_nat (length (targetRegions (rs_job st))))%Z ∧
  (∀ e, In e (errors (rs_job st)) →
        In e (errors (rs_job (replicatePaths env totalPaths ps st)))) ∧
  (progressTracks totalPaths st →
   progressTracks totalPaths (replicatePaths env totalPaths ps st)) ∧
  (∀ k, is_Some (rs_bucket st !! k) →
        is_Some (rs_bucket (replicatePaths env totalPaths ps st) !! k)).
Proof.
  induction ps as [|p ps IH]; intros st.
  - simpl. repeat split; auto using sameJob_refl; lia.
  - cbn [replicatePaths length].
    destruct (rs_bucket st !! _) as [src|] eqn:E.
    + destruct (replicateTargets_spec p src (targetRegions (rs_job st)) st)
        as (Hsame1 & Hdone1 & _ & Herr1 & Htrack1 & Hmono1).
      destruct (IH (replicateTargets env totalPaths p src
                                     (targetRegions (rs_job st)) st))
        as (Hsame & Hdone & Herr & Htrack & Hmono).
      assert (targetRegions
                (rs_job (replicateTargets env totalPaths p src
                                          (targetRegions (rs_job st)) st))
              = targetRegions (rs_job st)) as HT by apply Hsame1.
      rewrite HT in Hdone.
      split; [eapply sameJob_trans; eassumption|].
      split; [lia|].
      split; [intros e He; apply Herr; rewrite Herr1; apply in_or_app; now left|].
      split; [auto|]. auto.
    + match goal with
      | |- context [replicatePaths _ _ ps ?s] =>
          destruct (IH s) as (Hsame & Hdone & Herr & Htrack & Hmono)
      end.
      cbn [rs_job rs_completed rs_puts rs_bucket pushError targetRegions errors]
        in *.
      split; [eapply sameJob_trans; [|exact Hsame]; repeat split|].
      split; [lia|].
      split; [intros e He; apply Herr, in_or_app; now left|].
      split; [intros Ht; apply Htrack; exact Ht|]. auto.
Qed.

(** A path whose source object is absent: an error, and nothing else. *)
Lemma replicatePaths_missing p ps st :
  rs_bucket st !! (sourceRegion (rs_job st) +:+ "/" +:+ p) = None →
  replicatePaths env totalPaths (p :: ps) st
  = replicatePaths env totalPaths ps
      {| rs_bucket := rs_bucket st;
         rs_job := pushError (rs_job st) (sourceMissing p);
         rs_completed := rs_completed st; rs_puts := rs_puts st |}.
Proof. cbn [replicatePaths]. now intros ->. Qed.

(** When every source object is absent, no write is attempted. *)
Lemma replicatePaths_all_missing ps : ∀ st,
  Forall (fun p => rs_bucket st !! (sourceRegion (rs_job st) +:+ "/" +:+ p)
                   = None) ps →
  rs_completed (replicatePaths env totalPaths ps st) = rs_completed st ∧
  progress (rs_job (replicatePaths env totalPaths ps st))
    = progress (rs_job st) ∧
  errors (rs_job (replicatePaths env totalPaths ps st))
    = (errors (rs_job st) ++ map sourceMissing ps)%list.
Proof.
  induction ps as [|p ps IH]; intros st Hall.
  - simpl. now rewrite app_nil_r.
  - inversion Hall as [|? ? Hp Hps]; subst.
    rewrite (replicatePaths_missing p ps st Hp).
    match goal with
    | |- context [replicatePaths _ _ ps ?s] =>
        destruct (IH s) as (Hdone & Hprog & Herr); [exact Hps|]
    end.
    cbn [rs_job rs_completed pushError progress errors] in *.
    rewrite Hdone, Hprog, Herr. cbn [map]. now rewrite <- app_assoc.
Qed.

(** When every source object is present at the start, every (path,
    target) write is attempted, and the errors are exactly those of the
    writes that threw. *)
Lemma replicatePaths_all_present ps : ∀ st,
  Forall (fun p => is_Some (rs_bucket st
                              !! (sourceRegion (rs_job st) +:+ "/" +:+ p))) ps →
  rs_completed (replicatePaths env totalPaths ps st)
    = (rs_completed st
       + Z.of_nat (length ps) * Z.of_nat (length (targetRegions (rs_job st))))%Z ∧
  errors (rs_job (replicatePaths env totalPaths ps st))
    = (errors (rs_job st)
       ++ allPutErrors env (rs_puts st) ps (targetRegions (rs_job st)))%list.
Proof.
  induction ps as [|p ps IH]; intros st Hall.
  - simpl. rewrite app_nil_r. split; [lia | reflexivity].
  - inversion Hall as [|? ? [src Hp] Hps]; subst.
    cbn [replicatePaths length allPutErrors]. rewrite Hp.
    destruct (replicateTargets_spec p src (targetRegions (rs_job st)) st)
      as (Hsame1 & Hdone1 & Hputs1 & Herr1 & _ & Hmono1).
    destruct Hsame1 as (_ & Hsrc & HT & _).
    destruct (IH (replicateTargets env totalPaths p src
                                   (targetRegions (rs_job st)) st))
      as (Hdone & Herr).
    { rewrite Hsrc. eapply Forall_impl; [exact Hps|]. intros q Hq. now apply Hmono1. }
    rewrite Hdone, Herr, Hdone1, Herr1, Hputs1, HT.
    split; [lia | now rewrite <- app_assoc].
Qed.

End Loops.

Section Run.

Context (env : ReplEnv) (now : Z) (w : Replicator) (job : ReplicationJob).

(** What [runReplication] makes of the state the loops end in. *)
Lemma runReplication_job :
  (runReplication env now w job).2
  = setCompletedAt
      (setStatus (rs_job (replicationLoop env (bucket w) job))
         (if (0 <? Z.of_nat
                     (length (errors (rs_job (replicationLoop env (bucket w) job)))))%Z
          then Failed else Completed))
      now.
Proof. reflexivity. Qed.

Lemma runReplication_errors :
  errors (runReplication env now w job).2
  = errors (rs_job (replicationLoop env (bucket w) job)).
Proof. reflexivity. Qed.

Lemma runReplication_progress :
  progress (runReplication env now w job).2
  = progress (rs_job (replicationLoop env (bucket w) job)).
Proof. reflexivity. Qed.

Lemma runReplication_status :
  status (runReplication env now w job).2
  = match errors (runReplication env now w job).2 with
    | [] => Completed
    | _ :: _ => Failed
    end.
Proof.
  rewrite runReplication_errors, runReplication_job.
  cbn [status setCompletedAt setStatus].
  now destruct (errors (rs_job (replicationLoop env (bucket w) job))).
Qed.

Lemma runReplication_id : j_id (runReplication env now w job).2 = j_id job.
Proof.
  rewrite runReplication_job. cbn [j_id setCompletedAt setStatus].
  unfold replicationLoop, runPaths.
  match goal with
  | |- j_id (rs_job (replicatePaths _ ?t ?ps ?s)) = _ =>
      destruct (replicatePaths_spec env t ps s) as ((Hid & _) & _)
  end.
  exact Hid.
Qed.

(** A job that enters the run with progress 0 keeps its progress equal to
    the rounded share of completed writes. *)
Lemma replicationLoop_tracks :
  progress job = 0%Z →
  progressTracks (totalPathsOf job) (replicationLoop env (bucket w) job).
Proof.
  intros H0. unfold replicationLoop, runPaths.
  apply replicatePaths_spec. unfold progressTracks.
  cbn [rs_job rs_completed progress setStatus].
  now rewrite progressOf_zero.
Qed.

(** With every source object present and at least one write to make, the
    progress ends at 100. *)
Lemma runReplication_full_progress :
  progress job = 0%Z →
  paths job ≠ [] → targetRegions job ≠ [] →
  Forall (fun p => is_Some (bucket w !! (sourceRegion job +:+ "/" +:+ p)))
         (paths job) →
  progress (runReplication env now w job).2 = 100%Z.
Proof.
  intros H0 Hps Hts Hall.
  rewrite runReplication_progress, (replicationLoop_tracks H0).
  unfold replicationLoop, runPaths.
  match goal with
  | |- progressOf (rs_completed (replicatePaths _ ?t ?ps ?s)) _ = _ =>
      destruct (replicatePaths_all_present env t ps s) as (-> & _);
        [exact Hall|]
  end.
  cbn [rs_job rs_completed setStatus targetRegions]. rewrite Z.add_0_l.
  apply progressOf_full. unfold totalPathsOf.
  destruct (paths job); [congruence|]. destruct (targetRegions job); [congruence|].
  simpl length. lia.
Qed.

End Run.



(** C10, as the code has it.  Take a new job with at least one target region
    and a path [p] whose source object is absent when the run reaches it
    (after the paths [pre] before it).  The run ends ['failed'] with the
    error "Source not found: p"; the writes completed are at most the total
    minus one per target region, so strictly fewer than the total; the
    progress is [Math.round((completed / total) * 100)] as the doubles give
    it, a value from 0 to 100, and at most 99 while no more than 99 in 100
    of the writes are completed (the total being a safe integer); and if
    every source object is absent at the start the progress is 0. *)
Theorem replication_missing_source (env : ReplEnv) (now : Z) (w : Replicator)
    (uuid : string) (t0 : Z) (src : string) (targets pre : list string)
    (p : string) (post : list string) :
  targets ≠ [] →
  rs_bucket (runPaths env (bucket w)
               (newJob uuid t0 src targets (pre ++ p :: post)) pre)
    !! (src +:+ "/" +:+ p) = None →
  status (runReplication env now w
            (newJob uuid t0 src targets (pre ++ p :: post))).2 = Failed ∧
  In (sourceMissing p)
     (errors (runReplication env now w
                (newJob uuid t0 src targets (pre ++ p :: post))).2) ∧
  (rs_completed (replicationLoop env (bucket w)
                   (newJob uuid t0 src targets (pre ++ p :: post)))
   <= totalPathsOf (newJob uuid t0 src targets (pre ++ p :: post))
      - Z.of_nat (length targets))%Z ∧
  (rs_completed (replicationLoop env (bucket w)
                   (newJob uuid t0 src targets (pre ++ p :: post)))
   < totalPathsOf (newJob uuid t0 src targets (pre ++ p :: post)))%Z ∧
  progress (runReplication env now w
              (newJob uuid t0 src targets (pre ++ p :: post))).2
    = progressOf
        (rs_completed (replicationLoop env (bucket w)
                         (newJob uuid t0 src targets (pre ++ p :: post))))
        (totalPathsOf (newJob uuid t0 src targets (pre ++ p :: post))) ∧
  (0 <= progress (runReplication env now w
                    (newJob uuid t0 src targets (pre ++ p :: post))).2
   <= 100)%Z ∧
  ((totalPathsOf (newJob uuid t0 src targets (pre ++ p :: post))
    <= 2 ^ 53 - 1)%Z →
   (100 * rs_completed (replicationLoop env (bucket w)
                          (newJob uuid t0 src targets (pre ++ p :: post)))
    <= 99 * totalPathsOf (newJob uuid t0 src targets (pre ++ p :: post)))%Z →
   (progress (runReplication env now w
                (newJob uuid t0 src targets (pre ++ p :: post))).2
    <= 99)%Z) ∧
  (Forall (fun q => bucket w !! (src +:+ "/" +:+ q) = None) (pre ++ p :: post) →
   progress (runReplication env now w
               (newJob uuid t0 src targets (pre ++ p :: post))).2 = 0%Z).
Proof.
  intros Htargets Habsent.
  set (job := newJob uuid t0 src targets (pre ++ p :: post)) in *.
  set (total := totalPathsOf job).
  assert (0 < Z.of_nat (length targets))%Z as HT
    by (destruct targets; [congruence | simpl; lia]).
  assert (total = (Z.of_nat (length pre) + 1 + Z.of_nat (length post))
                  * Z.of_nat (length targets))%Z as Htotal.
  { unfold total, totalPathsOf, job. cbn [paths targetRegions newJob].
    rewrite length_app. cbn [length]. lia. }
  (* the run, cut at [p] *)
  assert (replicationLoop env (bucket w) job
          = replicatePaths env total post
              {| rs_bucket := rs_bucket (runPaths env (bucket w) job pre);
                 rs_job := pushError (rs_job (runPaths env (bucket w) job pre))
                                     (sourceMissing p);
                 rs_completed := rs_completed (runPaths env (bucket w) job pre);
                 rs_puts := rs_puts (runPaths env (bucket w) job pre) |}) as Hcut.
  { unfold replicationLoop. unfold runPaths at 1.
    change (paths job) with (pre ++ p :: post)%list.
    rewrite replicatePaths_app. apply replicatePaths_missing.
    destruct (replicatePaths_spec env (totalPathsOf (setStatus job Running)) pre
                {| rs_bucket := bucket w; rs_job := setStatus job Running;
                   rs_completed := 0; rs_puts := 0 |}) as ((_ & Hsrc & _) & _).
    fold (runPaths env (bucket w) job pre) in Hsrc. rewrite Hsrc.
    exact Habsent. }
  destruct (replicatePaths_spec env (totalPathsOf (setStatus job Running)) pre
              {| rs_bucket := bucket w; rs_job := setStatus job Running;
                 rs_completed := 0; rs_puts := 0 |})
    as ((_ & _ & HT1 & _) & Hdone1 & _).
  fold (runPaths env (bucket w) job pre) in HT1, Hdone1.
  cbn [rs_job rs_completed setStatus targetRegions job newJob] in HT1, Hdone1.
  match type of Hcut with
  | _ = replicatePaths _ _ _ ?s =>
      destruct (replicatePaths_spec env total post s)
        as (_ & Hdone2 & Herr2 & _)
  end.
  rewrite <- Hcut in Hdone2, Herr2.
  cbn [rs_job rs_completed pushError targetRegions errors] in Hdone2, Herr2.
  rewrite HT1 in Hdone2.
  assert (In (sourceMissing p)
             (errors (runReplication env now w job).2)) as Hin.
  { rewrite runReplication_errors. apply Herr2, in_or_app. right. now left. }
  assert (rs_completed (replicationLoop env (bucket w) job)
          <= total - Z.of_nat (length targets))%Z as Hle by lia.
  assert (progress (runReplication env now w job).2
          = progressOf (rs_completed (replicationLoop env (bucket w) job)) total)
    as Hprog.
  { rewrite runReplication_progress.
    apply (replicationLoop_tracks env w job eq_refl). }
  split; [|split; [exact Hin|split; [exact Hle|split; [lia|split;
    [exact Hprog|split; [|split]]]]]].
  - rewrite runReplication_status.
    destruct (errors (runReplication env now w job).2); [destruct Hin | reflexivity].
  - rewrite Hprog. apply progressOf_range. lia.
  - intros Hsafe H99. rewrite Hprog. apply progressOf_below_100; lia.
  - intros Hall. rewrite runReplication_progress.
    unfold replicationLoop, runPaths.
    match goal with
    | |- progress (rs_job (replicatePaths _ ?t ?ps ?s)) = _ =>
        destruct (replicatePaths_all_missing env t ps s) as (_ & -> & _)
    end; [exact Hall | reflexivity].
Qed.

Lemma replication_missing_source_witness :
  status (runReplication Examples.calm 900 Examples.oneObject
            (newJob "j-2" 100 "src" ["eu"] (["a"] ++ "gone" :: []))).2 = Failed ∧
  In (sourceMissing "gone")
     (errors (runReplication Examples.calm 900 Examples.oneObject
                (newJob "j-2" 100 "src" ["eu"] (["a"] ++ "gone" :: []))).2) ∧
  (rs_completed (replicationLoop Examples.calm (bucket Examples.oneObject)
                   (newJob "j-2" 100 "src" ["eu"] (["a"] ++ "gone" :: [])))
   <= totalPathsOf (newJob "j-2" 100 "src" ["eu"] (["a"] ++ "gone" :: []))
      - Z.of_nat (length ["eu"]))%Z ∧
  (rs_completed (replicationLoop Examples.calm (bucket Examples.oneObject)
                   (newJob "j-2" 100 "src" ["eu"] (["a"] ++ "gone" :: [])))
   < totalPathsOf (newJob "j-2" 100 "src" ["eu"] (["a"] ++ "gone" :: [])))%Z ∧
  progress (runReplication Examples.calm 900 Examples.oneObject
              (newJob "j-2" 100 "src" ["eu"] (["a"] ++ "gone" :: []))).2
    = progressOf
        (rs_completed (replicationLoop Examples.calm (bucket Examples.oneObject)
                         (newJob "j-2" 100 "src" ["eu"] (["a"] ++ "gone" :: []))))
        (totalPathsOf (newJob "j-2" 100 "src" ["eu"] (["a"] ++ "gone" :: []))) ∧
  (0 <= progress (runReplication Examples.calm 900 Examples.oneObject
                    (newJob "j-2" 100 "src" ["eu"] (["a"] ++ "gone" :: []))).2
   <= 100)%Z ∧
  ((totalPathsOf (newJob "j-2" 100 "src" ["eu"] (["a"] ++ "gone" :: []))
    <= 2 ^ 53 - 1)%Z →
   (100 * rs_completed (replicationLoop Examples.calm (bucket Examples.oneObject)
                          (newJob "j-2" 100 "src" ["eu"] (["a"] ++ "gone" :: [])))
    <= 99 * totalPathsOf (newJob "j-2" 100 "src" ["eu"] (["a"] ++ "gone" :: [])))%Z →
   (progress (runReplication Examples.calm 900 Examples.oneObject
                (newJob "j-2" 100 "src" ["eu"] (["a"] ++ "gone" :: []))).2
    <= 99)%Z) ∧
  (Forall (fun q => bucket Examples.oneObject !! ("src" +:+ "/" +:+ q) = None)
          (["a"] ++ "gone" :: []) →
   progress (runReplication Examples.calm 900 Examples.oneObject
               (newJob "j-2" 100 "src" ["eu"] (["a"] ++ "gone" :: []))).2 = 0%Z).
Proof.
  apply (replication_missing_source Examples.calm 900 Examples.oneObject
           "j-2" 100 "src" ["eu"] ["a"] "gone" []).
  - discriminate.
  - vm_compute. reflexivity.
Defined.

(** C10 as stated fails when the share of completed writes rounds to 100:
    of 250 paths the first has no source object, each of the others is
    written to the one target region, and the job ends ['failed'] with a
    progress of [Math.round((249 / 250) * 100)], which is 100. *)
Lemma replication_skip_rounds_to_100 :
  bucket Examples.oneObject !! ("src" +:+ "/" +:+ "gone") = None ∧
  status (runReplication Examples.calm 900 Examples.oneObject
            (newJob "j-3" 100 "src" ["eu"] ("gone" :: repeat "a" 249))).2
    = Failed ∧
  rs_completed (replicationLoop Examples.calm (bucket Examples.oneObject)
                  (newJob "j-3" 100 "src" ["eu"] ("gone" :: repeat "a" 249)))
    = 249%Z ∧
  totalPathsOf (newJob "j-3" 100 "src" ["eu"] ("gone" :: repeat "a" 249))
    = 250%Z ∧
  progress (runReplication Examples.calm 900 Examples.oneObject
              (newJob "j-3" 100 "src" ["eu"] ("gone" :: repeat "a" 249))).2
    = 100%Z ∧
  ¬ (progress (runReplication Examples.calm 900 Examples.oneObject
                 (newJob "j-3" 100 "src" ["eu"] ("gone" :: repeat "a" 249))).2
     < 100)%Z.
Proof.
  assert (progress (runReplication Examples.calm 900 Examples.oneObject
                      (newJob "j-3" 100 "src" ["eu"]
                              ("gone" :: repeat "a" 249))).2 = 100%Z) as H
    by (vm_compute; reflexivity).
  split; [vm_compute; reflexivity|].
  split; [vm_compute; reflexivity|].
  split; [vm_compute; reflexivity|].
  split; [vm_compute; reflexivity|].
  split; [exact H|]. rewrite H. lia.
Qed.

(** ** Cache keys *)

Section CacheKeys.

Lemma length_append (a s : string) :
  String.length (a +:+ s) = (String.length a + String.length s)%nat.
Proof. induction a as [|c a IH]; simpl; [reflexivity | now rewrite IH]. Qed.

(** A common suffix can be cancelled. *)
Lemma append_cancel_r (s : string) : ∀ a b, a +:+ s = b +:+ s → a = b.
Proof.
  induction a as [|c a IH]; intros [|d b] H; simpl in H.
  - reflexivity.
  - apply (f_equal String.length) in H.
    rewrite !length_append in H. simpl in H. rewrite ?length_append in H. lia.
  - apply (f_equal String.length) in H.
    rewrite !length_append in H. simpl in H. rewrite ?length_append in H. lia.
  - injection H as -> H. f_equal. now apply IH.
Qed.

End CacheKeys.

(** C8. [getCacheKey] is a function of its two arguments: equal paths and
    regions give equal keys, the key being ["cache:" + region + ":" + path];
    and for one path, two different region ids give two different keys. *)
Theorem getCacheKey_contract :
  (∀ path path' region region',
     path = path' → region = region' →
     getCacheKey path region = getCacheKey path' region') ∧
  (∀ path region,
     getCacheKey path region = "cache:" +:+ region +:+ ":" +:+ path) ∧
  (∀ path regionA regionB,
     regionA ≠ regionB →
     getCacheKey path regionA ≠ getCacheKey path regionB).
Proof.
  split; [|split].
  - intros path path' region region' -> ->. reflexivity.
  - reflexivity.
  - intros path regionA regionB Hne Heq. apply Hne.
    unfold getCacheKey in Heq.
    apply (String.app_inj "cache:") in Heq.
    now apply append_cancel_r in Heq.
Qed.

Lemma getCacheKey_contract_witness :
  getCacheKey "img/logo.png" "us-east" ≠ getCacheKey "img/logo.png" "eu-west".
Proof.
  apply (proj2 (proj2 getCacheKey_contract) "img/logo.png" "us-east" "eu-west").
  discriminate.
Defined.

(** * Further properties *)

(** ** The region directory *)

Section Directory.

Context {V : Type}.
Implicit Types (m : list (string * V)) (k : string) (v : V).

Lemma get_set m k v : ∀ k',
  OMap.get (OMap.set m k v) k'
  = if String.eqb k' k then Some v else OMap.get m k'.
Proof.
  induction m as [|[k0 v0] m IH]; intros k'; simpl.
  - reflexivity.
  - destruct (String.eqb_spec k k0) as [->|Hne]; simpl.
    + now destruct (String.eqb k' k0).
    + rewrite IH. destruct (String.eqb_spec k' k0) as [->|Hne'].
      * destruct (String.eqb_spec k0 k); [congruence | reflexivity].
      * reflexivity.
Qed.

Lemma keys_set m k v :
  OMap.keys (OMap.set m k v)
  = if decide (k ∈ OMap.keys m) then OMap.keys m
    else (OMap.keys m ++ [k])%list.
Proof.
  unfold OMap.keys. induction m as [|[k0 v0] m IH]; cbn [OMap.set map fst].
  - rewrite decide_False; [reflexivity | apply not_elem_of_nil].
  - destruct (String.eqb_spec k k0) as [->|Hne]; cbn [map fst].
    + rewrite decide_True; [reflexivity | left].
    + rewrite IH. destruct (decide (k ∈ map fst m)) as [Hin|Hn].
      * rewrite decide_True; [reflexivity | now right].
      * rewrite decide_False; [reflexivity|].
        intros [?|?]%elem_of_cons; congruence.
Qed.

Lemma set_fresh m k v :
  k ∉ OMap.keys m → OMap.set m k v = (m ++ [(k, v)])%list.
Proof.
  induction m as [|[k0 v0] m IH]; simpl; intros Hk; [reflexivity|].
  unfold OMap.keys in Hk. simpl in Hk.
  apply not_elem_of_cons in Hk as [Hne Hk].
  destruct (String.eqb_spec k k0); [congruence|]. now rewrite IH.
Qed.

Lemma elem_of_set m k v :
  ∀ kv, kv ∈ OMap.set m k v → kv = (k, v) ∨ kv ∈ m.
Proof.
  induction m as [|[k0 v0] m IH]; simpl; intros kv Hin.
  - apply list_elem_of_singleton in Hin. now left.
  - destruct (String.eqb k k0).
    + apply elem_of_cons in Hin as [->|Hin]; [now left|].
      right. now right.
    + apply elem_of_cons in Hin as [->|Hin]; [right; left|].
      destruct (IH _ Hin) as [->|?]; [now left | right; now right].
Qed.

End Directory.

Lemma find_append {A} (f : A → bool) (l1 l2 : list A) :
  find f (l1 ++ l2)
  = match find f l1 with Some x => Some x | None => find f l2 end.
Proof.
  induction l1 as [|x l1 IH]; simpl; [reflexivity|]. now destruct (f x).
Qed.

Section DirectoryInvariant.

Implicit Types (regions : Regions) (r : Region).

Lemma keyedById_nil : keyedById [].
Proof. split; constructor. Qed.

Lemma addRegion_keyed regions r :
  keyedById regions → keyedById (addRegion regions r).
Proof.
  intros [Hkey Hnd]. unfold addRegion. split.
  - apply Forall_forall. intros kr Hin.
    destruct (elem_of_set regions (r_id r) r kr Hin)
      as [->|Hold]; [reflexivity|].
    rewrite Forall_forall in Hkey. now apply Hkey.
  - rewrite keys_set. destruct (decide _) as [_|Hn]; [exact Hnd|].
    apply NoDup_app. split; [exact Hnd|]. split.
    + intros x Hx Hx'. apply list_elem_of_singleton in Hx'. now subst.
    + apply NoDup_singleton.
Qed.

Lemma loadAll_keyed (data : list Region) : ∀ regions,
  keyedById regions → keyedById (fold_left addRegion data regions).
Proof.
  induction data as [|r data IH]; intros regions H; simpl; [exact H|].
  apply IH. now apply addRegion_keyed.
Qed.

Lemma loadAll_get (data : list Region) : ∀ regions id,
  OMap.get (fold_left addRegion data regions) id
  = match find (fun r => String.eqb id (r_id r)) (rev data) with
    | Some r => Some r
    | None => OMap.get regions id
    end.
Proof.
  induction data as [|r data IH]; intros regions id; simpl; [reflexivity|].
  rewrite IH, find_append. unfold addRegion at 1. rewrite get_set.
  destruct (find _ (rev data)); [reflexivity|]. simpl.
  now destruct (String.eqb id (r_id r)).
Qed.

(** Re-inserting the values of a directory, in order, after entries whose
    ids are all different from theirs, appends them unchanged. *)
Lemma loadAll_fresh (l : Regions) : ∀ regions,
  Forall (fun kr => kr.1 = r_id kr.2) l →
  NoDup (OMap.keys regions ++ OMap.keys l) →
  fold_left addRegion (OMap.values l) regions = (regions ++ l)%list.
Proof.
  induction l as [|[k r] l IH]; intros regions Hkey Hnd; simpl.
  - now rewrite app_nil_r.
  - inversion Hkey as [|? ? Hk Hkey']; subst. simpl in Hk. subst k.
    unfold OMap.keys in Hnd. simpl in Hnd.
    apply NoDup_app in Hnd as (Hnd1 & Hdisj & Hnd2).
    assert (r_id r ∉ OMap.keys regions) as Hfresh
      by (intros Hin; apply (Hdisj _ Hin); left).
    unfold addRegion at 2. rewrite set_fresh by exact Hfresh.
    rewrite IH; [now rewrite <- app_assoc | exact Hkey' |].
    unfold OMap.keys. rewrite map_app. simpl. rewrite <- app_assoc. simpl.
    apply NoDup_app. split; [exact Hnd1|]. split; [|exact Hnd2].
    intros x Hx. now apply Hdisj.
Qed.

End DirectoryInvariant.

(** X1. Looking a region up after [addRegion]: the id just added answers
    with the region added, every other id answers as before. *)
Theorem addRegion_lookup (regions : Regions) (r : Region) (id : string) :
  OMap.get (addRegion regions r) id
  = if decide (id = r_id r) then Some r else OMap.get regions id.
Proof.
  unfold addRegion. rewrite get_set.
  destruct (String.eqb_spec id (r_id r)) as [->|Hne].
  - now rewrite decide_True.
  - now rewrite decide_False.
Qed.

(** X2. [addRegion] replaces in place: when the id is already registered the
    order of the ids is unchanged, otherwise the id goes last; and adding the
    same region twice is the same as adding it once. *)
Theorem addRegion_in_place (regions : Regions) (r : Region) :
  OMap.keys (addRegion regions r)
  = (if decide (r_id r ∈ OMap.keys regions) then OMap.keys regions
     else (OMap.keys regions ++ [r_id r])%list) ∧
  addRegion (addRegion regions r) r = addRegion regions r.
Proof.
  split; [apply keys_set|].
  unfold addRegion. generalize (r_id r). intros k.
  induction regions as [|[k0 r0] regions IH]; simpl.
  - now rewrite String.eqb_refl.
  - destruct (String.eqb k k0) eqn:E; simpl.
    + now rewrite String.eqb_refl.
    + now rewrite E, IH.
Qed.

(** X3. Whatever regions are added to an empty router, in whatever order,
    every entry of the directory sits under the id of its region and no id
    is registered twice. *)
Theorem directory_keyed_by_id (rs : list Region) :
  keyedById (fold_left addRegion rs []).
Proof. apply loadAll_keyed, keyedById_nil. Qed.

(** X4. [loadRegions] on a stored array succeeds and merges: an id found in
    the array answers with the last region of the array that carries it,
    any other id answers as before the load; a directory keyed by id stays
    so. *)
Theorem loadRegions_merge (regions : Regions)
    (kv : gmap string (KVValue * option Z)) (data : list Region)
    (ttl : option Z) :
  kv !! "cdn:regions" = Some (KVRegions data, ttl) →
  ∃ regions',
    loadRegions regions kv = Ok regions' ∧
    (keyedById regions → keyedById regions') ∧
    ∀ id, OMap.get regions' id
          = match find (fun r => String.eqb id (r_id r)) (rev data) with
            | Some r => Some r
            | None => OMap.get regions id
            end.
Proof.
  intros Hkv. exists (fold_left addRegion data regions).
  unfold loadRegions. rewrite Hkv. split; [reflexivity|]. split.
  - apply loadAll_keyed.
  - apply loadAll_get.
Qed.

Lemma loadRegions_merge_witness :
  ∃ regions',
    loadRegions Examples.danglingRegions
                (saveRegions defaultRegions ∅) = Ok regions' ∧
    (keyedById Examples.danglingRegions → keyedById regions') ∧
    ∀ id, OMap.get regions' id
          = match find (fun r => String.eqb id (r_id r))
                       (rev (OMap.values defaultRegions)) with
            | Some r => Some r
            | None => OMap.get Examples.danglingRegions id
            end.
Proof.
  apply (loadRegions_merge Examples.danglingRegions
           (saveRegions defaultRegions ∅) (OMap.values defaultRegions) None).
  vm_compute. reflexivity.
Defined.

Lemma jsonRegions_values (regions : Regions) :
  OMap.values (jsonRegions regions) = map jsonRegion (OMap.values regions).
Proof.
  unfold OMap.values, jsonRegions. rewrite !map_map. reflexivity.
Qed.

Lemma jsonRegions_keyed (regions : Regions) :
  keyedById regions → keyedById (jsonRegions regions).
Proof.
  intros [Hkey Hnd]. split.
  - unfold jsonRegions. apply Forall_map.
    eapply Forall_impl; [exact Hkey|]. intros [k r] H. exact H.
  - unfold OMap.keys, jsonRegions in *. rewrite map_map. exact Hnd.
Qed.

Lemma jsonRegions_safe (regions : Regions) :
  jsonSafe regions → jsonRegions regions = regions.
Proof.
  unfold jsonSafe, jsonRegions.
  induction 1 as [|[k r] l Hr _ IH]; [reflexivity|].
  cbn [map fst snd] in *. rewrite IH. do 2 f_equal.
  destruct r as [id name c os p cs fb]. unfold jsonRegion. cbn in *. f_equal.
  induction Hr as [|o os' Ho _ IHo]; [reflexivity|].
  cbn [map]. rewrite IHo. f_equal.
  destruct o. unfold jsonOrigin. cbn in *. now rewrite Ho.
Qed.

(** The record that [saveRegions] writes, loaded into an empty router. *)
Lemma saved_then_loaded (regions : Regions)
    (kv : gmap string (KVValue * option Z)) :
  keyedById regions →
  loadRegions [] (saveRegions regions kv) = Ok (jsonRegions regions).
Proof.
  intros [Hkey Hnd]%jsonRegions_keyed. unfold loadRegions, saveRegions, kv_put.
  rewrite lookup_insert_eq, <- jsonRegions_values. f_equal.
  now rewrite (loadAll_fresh (jsonRegions regions) []).
Qed.

(** X5. Saving a directory that is keyed by id and loading the record into
    an empty router gives the directory back, in the same order, with its
    weights as JSON reads them; a directory whose weights JSON can write
    comes back as it was. *)
Theorem save_load_roundtrip (regions : Regions)
    (kv : gmap string (KVValue * option Z)) :
  keyedById regions →
  loadRegions [] (saveRegions regions kv) = Ok (jsonRegions regions) ∧
  (jsonSafe regions → loadRegions [] (saveRegions regions kv) = Ok regions).
Proof.
  intros Hkeyed. rewrite (saved_then_loaded regions kv Hkeyed).
  split; [reflexivity|]. intros Hsafe. now rewrite jsonRegions_safe.
Qed.

Lemma save_load_roundtrip_witness :
  loadRegions [] (saveRegions Examples.danglingRegions ∅)
    = Ok (jsonRegions Examples.danglingRegions) ∧
  (jsonSafe Examples.danglingRegions →
   loadRegions [] (saveRegions Examples.danglingRegions ∅)
     = Ok Examples.danglingRegions).
Proof.
  apply (save_load_roundtrip Examples.danglingRegions ∅).
  apply (loadAll_keyed [Examples.paris; Examples.virginia; Examples.tokyo] []
                       keyedById_nil).
Defined.

(** ** Routing, beyond failover *)

Section RoutingFacts.

Implicit Types (regions : Regions) (r : Region).

Lemma get_in_values {V} (m : list (string * V)) k v :
  OMap.get m k = Some v → In v (OMap.values m).
Proof.
  induction m as [|[k0 v0] m IH]; simpl; [discriminate|].
  destruct (String.eqb k k0); [intros [= ->]; now left | right; auto].
Qed.

Lemma findRegionByCountry_some regions country r :
  findRegionByCountry regions country = Some r →
  ∃ pre post,
    OMap.values regions = (pre ++ r :: post)%list ∧
    In country (countries r) ∧
    Forall (fun r' => ¬ In country (countries r')) pre.
Proof.
  unfold findRegionByCountry.
  induction (OMap.values regions) as [|x l IH]; simpl; [discriminate|].
  destruct (existsb (String.eqb country) (countries x)) eqn:E.
  - intros [= ->]. exists [], l. split; [reflexivity|]. split; [|constructor].
    apply existsb_exists in E as (c & Hc & Heq).
    apply String.eqb_eq in Heq. now subst.
  - intros H. destruct (IH H) as (pre & post & -> & Hin & Hpre).
    exists (x :: pre), post. split; [reflexivity|]. split; [exact Hin|].
    constructor; [|exact Hpre]. intros Hx.
    assert (existsb (String.eqb country) (countries x) = true) as E'
      by (apply existsb_exists; exists country; split;
          [exact Hx | apply String.eqb_refl]).
    congruence.
Qed.

Lemma sampleLoop_in l : ∀ random o, sampleLoop random l = Some o → In o l.
Proof.
  induction l as [|x l IH]; intros random o; simpl; [discriminate|].
  destruct (_ <=? 0)%float; [intros [= ->]; now left | right; eauto].
Qed.

Lemma filter_healthy_in r o :
  In o (filter (fun o => healthy o = true) (origins r)) →
  In o (origins r) ∧ healthy o = true.
Proof.
  intros H%list_elem_of_In%list_elem_of_filter.
  destruct H as [? H%list_elem_of_In]. now split.
Qed.

Lemma healthy_filter_cons r :
  isRegionHealthy r = true →
  ∃ o os, filter (fun o => healthy o = true) (origins r) = o :: os.
Proof.
  unfold isRegionHealthy. intros H.
  apply existsb_exists in H as (o & Hin & Ho).
  destruct (filter _ (origins r)) as [|x xs] eqn:E; [|eauto].
  assert (o ∈ filter (fun o => healthy o = true) (origins r)) as Hf
    by (apply list_elem_of_filter; split; [exact Ho | now apply list_elem_of_In]).
  rewrite E in Hf. inversion Hf.
Qed.

Lemma selectOrigin_up r rnd :
  isRegionHealthy r = true →
  ∃ o, selectOrigin r rnd = Some o ∧ In o (origins r) ∧ healthy o = true.
Proof.
  intros Hup. destruct (healthy_filter_cons r Hup) as (o & os & E).
  unfold selectOrigin. rewrite E. destruct os as [|o2 os].
  - exists o. split; [reflexivity|]. apply filter_healthy_in. rewrite E. now left.
  - destruct (sampleLoop _ (o :: o2 :: os)) as [x|] eqn:Hs.
    + exists x. split; [reflexivity|]. apply filter_healthy_in. rewrite E.
      eapply sampleLoop_in. exact Hs.
    + exists o. split; [reflexivity|]. apply filter_healthy_in. rewrite E. now left.
Qed.

Lemma selectOrigin_down r rnd :
  isRegionHealthy r = false → selectOrigin r rnd = head (origins r).
Proof.
  intros Hdown. unfold selectOrigin.
  assert (filter (fun o => healthy o = true) (origins r) = []) as ->; [|reflexivity].
  apply isRegionHealthy_false in Hdown.
  induction Hdown as [|o os Ho _ IH]; [reflexivity|].
  rewrite filter_cons. destruct (decide (healthy o = true)); [congruence | exact IH].
Qed.

Lemma selectOrigin_member r rnd :
  match selectOrigin r rnd with
  | Some o => In o (origins r)
  | None => origins r = []
  end.
Proof.
  destruct (isRegionHealthy r) eqn:E.
  - destruct (selectOrigin_up r rnd E) as (o & -> & Hin & _). exact Hin.
  - rewrite (selectOrigin_down r rnd E).
    destruct (origins r); [reflexivity | now left].
Qed.

Lemma resolveRegion_up regions country r :
  findRegionByCountry regions country = Some r →
  isRegionHealthy r = true →
  resolveRegion regions country = (Some r, false).
Proof. unfold resolveRegion. now intros -> ->. Qed.

Lemma resolveRegion_stay regions country r :
  findRegionByCountry regions country = Some r →
  isRegionHealthy r = false →
  truthy (fallback r) = false →
  resolveRegion regions country = (Some r, false).
Proof. unfold resolveRegion. now intros -> -> ->. Qed.

Lemma truthy_some (s : option string) :
  truthy s = true → ∃ fid, s = Some fid ∧ fid ≠ "".
Proof.
  destruct s as [[|c s]|]; simpl; try discriminate.
  intros _. eexists. split; [reflexivity | discriminate].
Qed.

Lemma findLowestLatencyRegion_inv regions best :
  findLowestLatencyRegion regions = Some best →
  In best (OMap.values regions) ∧ isRegionHealthy best = true.
Proof.
  intros H.
  assert (Exists (fun r => isRegionHealthy r = true) (OMap.values regions)) as Hex.
  { unfold findLowestLatencyRegion in H.
    destruct (filter _ (OMap.values regions)) as [|r0 rest] eqn:E; [discriminate|].
    assert (r0 ∈ filter (fun r => isRegionHealthy r = true)
                        (OMap.values regions)) as Hin by (rewrite E; left).
    apply list_elem_of_filter in Hin as [Hup Hin].
    apply Exists_exists. eauto. }
  destruct (findLowestLatencyRegion_some regions Hex) as (b & Hb & Hin & Hup & _).
  rewrite H in Hb. injection Hb as ->. now split.
Qed.

Lemma findLowestLatencyRegion_none_inv regions :
  findLowestLatencyRegion regions = None →
  Forall (fun r => isRegionHealthy r = false) (OMap.values regions).
Proof.
  intros H. apply Forall_forall. intros r Hr.
  destruct (isRegionHealthy r) eqn:E; [|reflexivity].
  assert (Exists (fun r => isRegionHealthy r = true) (OMap.values regions)) as Hex
    by (apply Exists_exists; eauto).
  destruct (findLowestLatencyRegion_some regions Hex) as (b & Hb & _).
  congruence.
Qed.

Lemma resolveRegion_registered regions country t fb :
  resolveRegion regions country = (Some t, fb) →
  In t (OMap.values regions).
Proof.
  unfold resolveRegion. intros Hres.
  destruct (findRegionByCountry regions country) as [r|] eqn:Hfind.
  - assert (In r (OMap.values regions)) as Hr.
    { destruct (findRegionByCountry_some _ _ _ Hfind) as (pre & post & -> & _).
      apply in_or_app. right. now left. }
    destruct (isRegionHealthy r); simpl in Hres.
    + now injection Hres as <- <-.
    + destruct (truthy (fallback r)).
      * destruct (OMap.get regions _) as [f|] eqn:Hget.
        { injection Hres as <- <-. eapply get_in_values. exact Hget. }
        destruct (findLowestLatencyRegion regions) as [b|] eqn:Hlow;
          [|discriminate].
        injection Hres as <- <-. now apply findLowestLatencyRegion_inv.
      * now injection Hres as <- <-.
  - simpl in Hres.
    destruct (findLowestLatencyRegion regions) as [b|] eqn:Hlow; [|discriminate].
    injection Hres as <- <-. now apply findLowestLatencyRegion_inv.
Qed.

Lemma route_region_registered regions cf rnd d :
  route regions cf rnd = Ok d → In (d_region d) (OMap.values regions).
Proof.
  unfold route.
  destruct (resolveRegion regions (requestCountry cf)) as [[t|] fb] eqn:Hres;
    [|discriminate].
  intros [= <-]. cbn [d_region]. eapply resolveRegion_registered. exact Hres.
Qed.

End RoutingFacts.

(** X6. The region found for a country is the first one, in the order of
    the directory, whose country list contains it: no region before it
    serves the country (priorities play no part). *)
Theorem findRegionByCountry_first (regions : Regions) (country : string)
    (r : Region) :
  findRegionByCountry regions country = Some r →
  ∃ pre post,
    OMap.values regions = (pre ++ r :: post)%list ∧
    In country (countries r) ∧
    Forall (fun r' => ¬ In country (countries r')) pre.
Proof. apply findRegionByCountry_some. Qed.

Lemma findRegionByCountry_first_witness :
  ∃ pre post,
    OMap.values defaultRegions = (pre ++ Examples.eu_west :: post)%list ∧
    In "DE" (countries Examples.eu_west) ∧
    Forall (fun r' => ¬ In "DE" (countries r')) pre.
Proof.
  apply (findRegionByCountry_first defaultRegions "DE" Examples.eu_west).
  reflexivity.
Defined.

(** X7. When the region serving the request country has a healthy origin,
    [route] answers with that region, reason ['geo'] and no fallback,
    whatever the other regions and their latencies are, and the origin it
    picks is a healthy origin of that region, for every random draw. *)
Theorem route_geo (regions : Regions) (cf : option string) (rnd : float)
    (r : Region) :
  findRegionByCountry regions (requestCountry cf) = Some r →
  isRegionHealthy r = true →
  ∃ o,
    route regions cf rnd =
      Ok {| d_region := r; d_origin := Some o; d_reason := Geo;
            d_fallback := false |} ∧
    In o (origins r) ∧ healthy o = true.
Proof.
  intros Hfind Hup.
  destruct (selectOrigin_up r rnd Hup) as (o & Hsel & Hin & Ho).
  exists o. split; [|now split].
  rewrite (route_resolved regions cf rnd r false).
  - now rewrite Hsel.
  - now apply resolveRegion_up.
Qed.

Lemma route_geo_witness :
  ∃ o,
    route Examples.danglingRegions (Some "US") 0.875 =
      Ok {| d_region := Examples.virginia; d_origin := Some o;
            d_reason := Geo; d_fallback := false |} ∧
    In o (origins Examples.virginia) ∧ healthy o = true.
Proof.
  apply (route_geo Examples.danglingRegions (Some "US") 0.875
           Examples.virginia); reflexivity.
Defined.

(** X8. When the region serving the request country has no healthy origin
    and no fallback id (none, or the empty string), [route] stays with it:
    the decision names that region and its first origin, tagged ['geo'],
    even if other regions are healthy. *)
Theorem route_stays_without_fallback (regions : Regions) (cf : option string)
    (rnd : float) (r : Region) :
  findRegionByCountry regions (requestCountry cf) = Some r →
  isRegionHealthy r = false →
  truthy (fallback r) = false →
  route regions cf rnd =
    Ok {| d_region := r; d_origin := head (origins r); d_reason := Geo;
          d_fallback := false |}.
Proof.
  intros Hfind Hdown Hfb.
  rewrite (route_resolved regions cf rnd r false).
  - now rewrite selectOrigin_down.
  - now apply resolveRegion_stay.
Qed.

Lemma route_stays_without_fallback_witness :
  route MoreExamples.nordic (Some "SE") 0.25 =
    Ok {| d_region := MoreExamples.oslo;
          d_origin := head (origins MoreExamples.oslo);
          d_reason := Geo; d_fallback := false |}.
Proof.
  apply (route_stays_without_fallback MoreExamples.nordic (Some "SE") 0.25
           MoreExamples.oslo); reflexivity.
Defined.

(** X9. [route] throws exactly when no region of the directory has a healthy
    origin and either no region serves the request country or the region
    that serves it names a fallback id under which nothing is registered.
    In every other case it returns a decision. *)
Theorem route_throws_iff (regions : Regions) (cf : option string) (rnd : float) :
  route regions cf rnd = Throw NoHealthyRegion ↔
  Forall (fun r => isRegionHealthy r = false) (OMap.values regions) ∧
  (findRegionByCountry regions (requestCountry cf) = None ∨
   ∃ r fid,
     findRegionByCountry regions (requestCountry cf) = Some r ∧
     fallback r = Some fid ∧ fid ≠ "" ∧ OMap.get regions fid = None).
Proof.
  split.
  - intros Hthrow.
    destruct (findRegionByCountry regions (requestCountry cf)) as [r|] eqn:Hfind.
    + destruct (isRegionHealthy r) eqn:Hup.
      { rewrite (route_resolved regions cf rnd r false) in Hthrow
          by now apply resolveRegion_up. discriminate. }
      destruct (truthy (fallback r)) eqn:Hfb.
      * destruct (truthy_some _ Hfb) as (fid & Hfid & Hne).
        pose proof (resolveRegion_failover regions _ r fid Hfind Hup Hfid Hne)
          as Hres.
        destruct (OMap.get regions fid) as [f|] eqn:Hget.
        { rewrite (route_resolved regions cf rnd f true Hres) in Hthrow.
          discriminate. }
        destruct (findLowestLatencyRegion regions) as [b|] eqn:Hlow.
        { rewrite (route_resolved regions cf rnd b true Hres) in Hthrow.
          discriminate. }
        split; [now apply findLowestLatencyRegion_none_inv|].
        right. exists r, fid. auto.
      * rewrite (route_resolved regions cf rnd r false) in Hthrow
          by now apply resolveRegion_stay. discriminate.
    + pose proof (resolveRegion_unmatched regions _ Hfind) as Hres.
      destruct (findLowestLatencyRegion regions) as [b|] eqn:Hlow.
      { rewrite (route_resolved regions cf rnd b false Hres) in Hthrow.
        discriminate. }
      split; [now apply findLowestLatencyRegion_none_inv | now left].
  - intros [Hdown [Hnone | (r & fid & Hfind & Hfid & Hne & Hget)]]; unfold route.
    + rewrite resolveRegion_unmatched by exact Hnone.
      now rewrite findLowestLatencyRegion_none.
    + assert (isRegionHealthy r = false) as Hr.
      { destruct (findRegionByCountry_some _ _ _ Hfind) as (pre & post & Hv & _).
        rewrite Forall_forall in Hdown. apply Hdown. rewrite Hv.
        apply elem_of_app. right. left. }
      rewrite (resolveRegion_failover _ _ r fid) by assumption.
      now rewrite Hget, findLowestLatencyRegion_none.
Qed.

(** X10. A region with at least one healthy origin never yields an unhealthy
    one: for every random draw, in range or not, and whatever the weights
    (zero, negative), [selectOrigin] returns an origin of the region that is
    healthy. *)
Theorem selectOrigin_healthy (region : Region) (rnd : float) :
  isRegionHealthy region = true →
  ∃ o, selectOrigin region rnd = Some o ∧
       In o (origins region) ∧ healthy o = true.
Proof. apply selectOrigin_up. Qed.

Lemma selectOrigin_healthy_witness :
  ∃ o, selectOrigin Examples.tokyo (-3) = Some o ∧
       In o (origins Examples.tokyo) ∧ healthy o = true.
Proof. apply (selectOrigin_healthy Examples.tokyo (-3)). reflexivity. Defined.

(** X11. Every decision [route] returns is about the directory: its region
    is one of the registered regions, its origin is one of that region's
    origins ([undefined] only when the region has none), and its reason is
    ['failover'] when the fallback flag is set and ['geo'] otherwise, never
    ['latency'] nor ['weighted']. *)
Theorem route_decision_sound (regions : Regions) (cf : option string)
    (rnd : float) (d : RoutingDecision) :
  route regions cf rnd = Ok d →
  In (d_region d) (OMap.values regions) ∧
  match d_origin d with
  | Some o => In o (origins (d_region d))
  | None => origins (d_region d) = []
  end ∧
  d_reason d = (if d_fallback d then Failover else Geo).
Proof.
  unfold route.
  destruct (resolveRegion regions (requestCountry cf)) as [[t|] fb] eqn:Hres;
    [|discriminate].
  intros [= <-]. cbn [d_region d_origin d_reason d_fallback].
  split; [|split; [apply selectOrigin_member | reflexivity]].
  eapply resolveRegion_registered. exact Hres.
Qed.

Lemma route_decision_sound_witness :
  In (d_region {| d_region := Examples.tokyo;
                  d_origin := Some (Examples.origin_ "ap-1" 1 true 25 0);
                  d_reason := Failover; d_fallback := true |})
     (OMap.values Examples.danglingRegions) ∧
  In (Examples.origin_ "ap-1" 1 true 25 0) (origins Examples.tokyo) ∧
  Failover = Failover.
Proof.
  apply (route_decision_sound Examples.danglingRegions (Some "FR") 0
           {| d_region := Examples.tokyo;
              d_origin := Some (Examples.origin_ "ap-1" 1 true 25 0);
              d_reason := Failover; d_fallback := true |}).
  reflexivity.
Defined.

(** ** Health sweep, beyond the failing paths *)

Section SweepFacts.

Lemma checkOrigin_same o p : sameOrigin o (checkOrigin o p).1.1.
Proof.
  unfold checkOrigin, recordOutcome.
  destruct (outcome p) as [[|] e|]; repeat split.
Qed.

Lemma checkOrigin_count o p :
  (checkOrigin o p).1.2
  = match outcome p with Responded true _ => 1%Z | _ => 0%Z end.
Proof.
  unfold checkOrigin, recordOutcome. now destruct (outcome p) as [[|] e|].
Qed.

Lemma checkOrigin_latency o p :
  (checkOrigin o p).2
  = match outcome p with Responded _ e => e | Threw => 0%Z end.
Proof.
  unfold checkOrigin, recordOutcome. now destruct (outcome p) as [[|] e|].
Qed.

(** The inner loop, origin by origin. *)
Lemma checkOrigins_spec probes os : ∀ j hc tl,
  (checkOrigins probes j os hc tl).1.1
    = imap (fun n o => (checkOrigin o (probes (j + n)%nat)).1.1) os ∧
  (checkOrigins probes j os hc tl).1.2
    = (hc + okCount probes j (length os))%Z ∧
  (checkOrigins probes j os hc tl).2
    = (tl + respondedLatency probes j (length os))%Z.
Proof.
  induction os as [|o os IH]; intros j hc tl.
  - simpl. repeat split; lia.
  - cbn [checkOrigins length okCount respondedLatency].
    pose proof (checkOrigin_count o (probes j)) as Hc.
    pose proof (checkOrigin_latency o (probes j)) as Hl.
    destruct (checkOrigin o (probes j)) as [[o' dc] dl] eqn:E.
    cbn [fst snd] in Hc, Hl.
    specialize (IH (S j) (hc + dc)%Z (tl + dl)%Z).
    destruct (checkOrigins probes (S j) os (hc + dc) (tl + dl))
      as [[rest hc'] tl'].
    cbn [fst snd] in *. destruct IH as (-> & -> & ->).
    split; [|split; lia].
    cbn [imap]. rewrite Nat.add_0_r, E. cbn [fst]. f_equal.
    apply imap_ext. intros n x _. cbn. now rewrite Nat.add_succ_r.
Qed.

Lemma okCount_bounds probes : ∀ n j,
  (0 <= okCount probes j n <= Z.of_nat n)%Z.
Proof.
  induction n as [|n IH]; intros j; cbn [okCount]; [lia|].
  specialize (IH (S j)). destruct (outcome (probes j)) as [[|] e|]; lia.
Qed.

(** The outer loop, entry by entry. *)
Lemma checkRegions_lookup env regions : ∀ i0 n k r,
  regions !! n = Some (k, r) →
  (checkRegions env i0 regions).1 !! n
    = Some (k, (checkRegion env (i0 + n) k r).1) ∧
  (checkRegions env i0 regions).2 !! n
    = Some (k, (checkRegion env (i0 + n) k r).2).
Proof.
  induction regions as [|[k0 r0] regions IH]; intros i0 n k r Hn;
    [discriminate|].
  cbn [checkRegions].
  destruct (checkRegion env i0 k0 r0) as [r0' st0] eqn:E.
  specialize (IH (S i0)).
  destruct (checkRegions env (S i0) regions) as [rest results].
  destruct n as [|n]; cbn in Hn |- *.
  - injection Hn as -> ->. now rewrite Nat.add_0_r, E.
  - rewrite Nat.add_succ_r. now apply IH.
Qed.

Lemma checkRegions_length env regions : ∀ i0,
  length (checkRegions env i0 regions).1 = length regions ∧
  length (checkRegions env i0 regions).2 = length regions.
Proof.
  induction regions as [|[k0 r0] regions IH]; intros i0; [now split|].
  cbn [checkRegions].
  destruct (checkRegion env i0 k0 r0) as [r0' st0].
  specialize (IH (S i0)).
  destruct (checkRegions env (S i0) regions) as [rest results].
  cbn in *. destruct IH. split; congruence.
Qed.

Lemma checkRegion_origins env i k r :
  origins (checkRegion env i k r).1
  = imap (fun n o => (checkOrigin o (probe env i n)).1.1) (origins r).
Proof.
  unfold checkRegion.
  destruct (checkOrigins_spec (probe env i) (origins r) 0 0%Z 0%Z) as (H & _).
  destruct (checkOrigins (probe env i) 0 (origins r) 0 0) as [[os hc] tl].
  cbn in *. exact H.
Qed.

Lemma checkRegion_same env i k r : sameRegion r (checkRegion env i k r).1.
Proof.
  pose proof (checkRegion_origins env i k r) as Hos.
  unfold checkRegion in *.
  destruct (checkOrigins (probe env i) 0 (origins r) 0 0) as [[os hc] tl].
  cbn in *. repeat split. subst os.
  apply Forall2_same_length_lookup. cbn [origins setOrigins].
  split; [now rewrite length_imap|].
  intros n o o' Ho Ho'. rewrite list_lookup_imap, Ho in Ho'.
  injection Ho' as <-. apply checkOrigin_same.
Qed.

End SweepFacts.

Section SweepResults.

Context (env : HealthEnv) (regions : Regions)
        (kv : gmap string (KVValue * option Z)).

Lemma performHealthChecks_regions :
  (performHealthChecks env regions kv).1.1 = (checkRegions env 0 regions).1.
Proof.
  unfold performHealthChecks. now destruct (checkRegions env 0 regions).
Qed.

Lemma performHealthChecks_results :
  (performHealthChecks env regions kv).2 = (checkRegions env 0 regions).2.
Proof.
  unfold performHealthChecks. now destruct (checkRegions env 0 regions).
Qed.

Lemma performHealthChecks_kv :
  (performHealthChecks env regions kv).1.2
  = saveRegions (performHealthChecks env regions kv).1.1 kv.
Proof.
  unfold performHealthChecks. now destruct (checkRegions env 0 regions).
Qed.

Lemma sweep_entries :
  Forall2 (fun kr kr' => kr'.1 = kr.1 ∧ sameRegion kr.2 kr'.2)
          regions (performHealthChecks env regions kv).1.1.
Proof.
  rewrite performHealthChecks_regions.
  apply Forall2_same_length_lookup. split.
  - symmetry. apply checkRegions_length.
  - intros n [k r] [k' r'] Hn Hn'.
    destruct (checkRegions_lookup env regions 0 n k r Hn) as [H1 _].
    pose proof (eq_trans (eq_sym Hn') H1) as Heq.
    injection Heq as -> ->. split; [reflexivity|].
    apply checkRegion_same.
Qed.

Lemma sweep_keyed :
  keyedById regions → keyedById (performHealthChecks env regions kv).1.1.
Proof.
  intros [Hkey Hnd]. pose proof sweep_entries as H.
  assert (OMap.keys (performHealthChecks env regions kv).1.1
          = OMap.keys regions) as Hkeys.
  { clear Hkey Hnd. unfold OMap.keys.
    induction H as [|[a b] [a' b'] ? ? [Ha _] _ IHl]; [reflexivity|].
    cbn in *. now rewrite IHl, Ha. }
  split; [|exact (eq_ind_r NoDup Hnd Hkeys)].
  clear Hkeys Hnd.
  induction H as [|[a b] [a' b'] ? ? [Ha Hr] _ IHl]; [constructor|].
  inversion Hkey as [|? ? Hk0 Hkey']; subst. cbn in *.
  constructor; [|now apply IHl].
  cbn. destruct Hr as [-> _]. congruence.
Qed.

(** The sweep leaves the weights alone, so what JSON can write of them
    before it, it can write after it. *)
Lemma sweep_jsonSafe :
  jsonSafe regions → jsonSafe (performHealthChecks env regions kv).1.1.
Proof.
  unfold jsonSafe. intros Hsafe. pose proof sweep_entries as H.
  induction H as [|[a b] [a' b'] ? ? [_ Hr] _ IHl]; [constructor|].
  inversion Hsafe as [|? ? Hb Hsafe']; subst.
  constructor; [|now apply IHl]. cbn [snd] in *.
  destruct Hr as (_ & _ & _ & _ & _ & _ & Hos). clear IHl Hsafe Hsafe'.
  induction Hos as [|o o' ? ? (_ & _ & Hw) _ IHo]; [constructor|].
  inversion Hb as [|? ? Ho Hb']; subst.
  constructor; [now rewrite Hw | now apply IHo].
Qed.

End SweepResults.

(** X12. A health sweep changes health data only: the directory keeps its
    entries in the same order under the same ids, every region keeps its id,
    name, code, priority, countries and fallback, and its origins keep their
    number, order, id, url and weight. *)
Theorem sweep_keeps_configuration (env : HealthEnv) (regions : Regions)
    (kv : gmap string (KVValue * option Z)) :
  Forall2 (fun kr kr' => kr'.1 = kr.1 ∧ sameRegion kr.2 kr'.2)
          regions (performHealthChecks env regions kv).1.1.
Proof. apply sweep_entries. Qed.

(** X13. The sweep returns one summary per directory entry, in order and
    under the same id.  The summary of the [i]-th region counts all its
    origins as total and the probes answered with an ok response as
    available, so that [0 <= available <= total]; it is flagged healthy
    exactly when that count is positive, reports 0 as average when the count
    is 0, and carries the clock reading taken for it. *)
Theorem sweep_summary (env : HealthEnv) (regions : Regions)
    (kv : gmap string (KVValue * option Z)) (i : nat) (k : string)
    (r : Region) :
  regions !! i = Some (k, r) →
  length (performHealthChecks env regions kv).2 = length regions ∧
  ∃ st,
    (performHealthChecks env regions kv).2 !! i = Some (k, st) ∧
    h_regionId st = k ∧
    totalOrigins st = Z.of_nat (length (origins r)) ∧
    availableOrigins st = okCount (probe env i) 0 (length (origins r)) ∧
    (0 <= availableOrigins st <= totalOrigins st)%Z ∧
    h_healthy st = (0 <? availableOrigins st)%Z ∧
    (availableOrigins st = 0%Z → avgLatencyMs st = 0%Q) ∧
    h_lastCheck st = summaryTime env i.
Proof.
  intros Hi. rewrite performHealthChecks_results.
  split; [apply checkRegions_length|].
  destruct (checkRegions_lookup env regions 0 i k r Hi) as [_ H2].
  eexists. split; [exact H2|]. cbn [Nat.add].
  unfold checkRegion.
  destruct (checkOrigins_spec (probe env i) (origins r) 0 0%Z 0%Z)
    as (_ & Hc & _).
  destruct (checkOrigins (probe env i) 0 (origins r) 0 0) as [[os hc] tl].
  cbn in *. subst hc.
  pose proof (okCount_bounds (probe env i) (length (origins r)) 0) as Hb.
  repeat split; try lia.
  intros ->. reflexivity.
Qed.

Lemma sweep_summary_witness :
  length (performHealthChecks Examples.slowError Examples.pair ∅).2
    = length Examples.pair ∧
  ∃ st,
    (performHealthChecks Examples.slowError Examples.pair ∅).2 !! 0%nat
      = Some ("pair", st) ∧
    h_regionId st = "pair" ∧
    totalOrigins st
      = Z.of_nat (length (origins (Examples.region_ "pair"
                                     [Examples.steady; Examples.shaky]
                                     ["US"] None))) ∧
    availableOrigins st
      = okCount (probe Examples.slowError 0) 0
                (length (origins (Examples.region_ "pair"
                                    [Examples.steady; Examples.shaky]
                                    ["US"] None))) ∧
    (0 <= availableOrigins st <= totalOrigins st)%Z ∧
    h_healthy st = (0 <? availableOrigins st)%Z ∧
    (availableOrigins st = 0%Z → avgLatencyMs st = 0%Q) ∧
    h_lastCheck st = summaryTime Examples.slowError 0.
Proof.
  apply (sweep_summary Examples.slowError Examples.pair ∅ 0 "pair"
           (Examples.region_ "pair" [Examples.steady; Examples.shaky]
                             ["US"] None)).
  reflexivity.
Defined.

(** X16. After a sweep the record under [cdn:regions] is the swept
    directory: loading it into an empty router gives back the regions the
    sweep left in memory, with their weights as JSON reads them, provided
    the directory was keyed by id; when JSON can write the weights of the
    directory, what is loaded is exactly what the sweep left in memory. *)
Theorem sweep_persisted (env : HealthEnv) (regions : Regions)
    (kv : gmap string (KVValue * option Z)) :
  keyedById regions →
  loadRegions [] (performHealthChecks env regions kv).1.2
  = Ok (jsonRegions (performHealthChecks env regions kv).1.1) ∧
  (jsonSafe regions →
   loadRegions [] (performHealthChecks env regions kv).1.2
   = Ok (performHealthChecks env regions kv).1.1).
Proof.
  intros Hkeyed. rewrite performHealthChecks_kv.
  rewrite (saved_then_loaded _ kv (sweep_keyed env regions kv Hkeyed)).
  split; [reflexivity|]. intros Hsafe.
  now rewrite (jsonRegions_safe _ (sweep_jsonSafe env regions kv Hsafe)).
Qed.

Lemma sweep_persisted_witness :
  loadRegions [] (performHealthChecks Examples.slowError
                    Examples.danglingRegions ∅).1.2
  = Ok (jsonRegions (performHealthChecks Examples.slowError
                       Examples.danglingRegions ∅).1.1) ∧
  (jsonSafe Examples.danglingRegions →
   loadRegions [] (performHealthChecks Examples.slowError
                     Examples.danglingRegions ∅).1.2
   = Ok (performHealthChecks Examples.slowError
           Examples.danglingRegions ∅).1.1).
Proof.
  apply (sweep_persisted Examples.slowError Examples.danglingRegions ∅).
  apply (loadAll_keyed [Examples.paris; Examples.virginia; Examples.tokyo] []
                       keyedById_nil).
Defined.

Section Debounce.

Lemma afterProbes_snoc o ps p :
  afterProbes o (ps ++ [p]) = (checkOrigin (afterProbes o ps) p).1.1.
Proof. unfold afterProbes. now rewrite fold_left_app. Qed.

Lemma checkOrigin_failed o p :
  failed p →
  consecutiveFailures (checkOrigin o p).1.1 = (consecutiveFailures o + 1)%Z ∧
  healthy (checkOrigin o p).1.1
  = match outcome p with
    | Threw => false
    | Responded _ _ => (consecutiveFailures o + 1 <? 3)%Z
    end.
Proof.
  unfold failed, checkOrigin, recordOutcome.
  destruct (outcome p) as [[|] e|]; intros H; try discriminate; now split.
Qed.

Lemma failures_counted ps : ∀ o,
  Forall failed ps →
  consecutiveFailures (afterProbes o ps)
  = (consecutiveFailures o + Z.of_nat (length ps))%Z.
Proof.
  induction ps as [|p ps IH]; intros o Hall; simpl; [lia|].
  inversion Hall as [|? ? Hp Hps]; subst.
  change (afterProbes o (p :: ps)) with (afterProbes (checkOrigin o p).1.1 ps).
  rewrite IH by exact Hps.
  destruct (checkOrigin_failed o p Hp) as [-> _]. lia.
Qed.

Lemma checkOrigin_healthy_bound o p :
  healthy (checkOrigin o p).1.1 = true →
  (consecutiveFailures (checkOrigin o p).1.1 < 3)%Z.
Proof.
  unfold checkOrigin, recordOutcome.
  destruct (outcome p) as [[|] e|]; cbn; intros H; try lia; try discriminate.
Qed.

End Debounce.

(** X14. Three strikes, whatever their kind.  An origin whose failure
    counter is not negative and whose probes fail three or more times in a
    row (non-ok responses and exceptions in any mix) is unhealthy, its
    counter having grown by the number of probes; a single ok response after
    them makes it healthy again with the counter back to 0. *)
Theorem three_strikes (o : Origin) (ps : list Probe) :
  (0 <= consecutiveFailures o)%Z →
  Forall failed ps →
  (3 <= length ps)%nat →
  healthy (afterProbes o ps) = false ∧
  consecutiveFailures (afterProbes o ps)
    = (consecutiveFailures o + Z.of_nat (length ps))%Z ∧
  ∀ elapsed t,
    healthy (afterProbes o (ps ++ [{| outcome := Responded true elapsed;
                                      checkedAt := t |}])) = true ∧
    consecutiveFailures
      (afterProbes o (ps ++ [{| outcome := Responded true elapsed;
                                checkedAt := t |}])) = 0%Z.
Proof.
  intros Hcf Hall Hlen. split; [|split].
  - destruct ps as [|p ps _] using rev_ind; [simpl in Hlen; lia|].
    apply Forall_app in Hall as [Hps Hp]. inversion Hp as [|? ? Hp' _]; subst.
    rewrite afterProbes_snoc.
    destruct (checkOrigin_failed (afterProbes o ps) p Hp') as [_ ->].
    rewrite failures_counted by exact Hps.
    rewrite length_app in Hlen. simpl in Hlen.
    destruct (outcome p); [|reflexivity].
    apply Z.ltb_ge. lia.
  - now apply failures_counted.
  - intros elapsed t. rewrite afterProbes_snoc. now split.
Qed.

Lemma three_strikes_witness :
  healthy (afterProbes Examples.steady MoreExamples.threeFailures) = false ∧
  consecutiveFailures (afterProbes Examples.steady MoreExamples.threeFailures)
    = (consecutiveFailures Examples.steady
       + Z.of_nat (length MoreExamples.threeFailures))%Z ∧
  ∀ elapsed t,
    healthy (afterProbes Examples.steady
               (MoreExamples.threeFailures
                  ++ [{| outcome := Responded true elapsed;
                         checkedAt := t |}])) = true ∧
    consecutiveFailures
      (afterProbes Examples.steady
         (MoreExamples.threeFailures
            ++ [{| outcome := Responded true elapsed;
                   checkedAt := t |}])) = 0%Z.
Proof.
  apply (three_strikes Examples.steady MoreExamples.threeFailures).
  - simpl. lia.
  - repeat constructor.
  - simpl. lia.
Defined.

(** X15. After a sweep, no origin of the directory is flagged healthy with
    three or more consecutive failures on record: [healthy] implies
    [consecutiveFailures < 3] for every origin, whatever its probe did. *)
Theorem sweep_healthy_under_three (env : HealthEnv) (regions : Regions)
    (kv : gmap string (KVValue * option Z)) (k : string) (r : Region)
    (o : Origin) :
  In (k, r) (performHealthChecks env regions kv).1.1 →
  In o (origins r) →
  healthy o = true →
  (consecutiveFailures o < 3)%Z.
Proof.
  rewrite performHealthChecks_regions.
  intros Hr Ho Hup.
  apply list_elem_of_In, list_elem_of_lookup in Hr as [n Hn].
  assert (is_Some (regions !! n)) as [[k0 r0] Hn0].
  { apply lookup_lt_is_Some.
    rewrite <- (proj1 (checkRegions_length env regions 0)).
    eapply lookup_lt_Some. exact Hn. }
  destruct (checkRegions_lookup env regions 0 n k0 r0 Hn0) as [H1 _].
  pose proof (eq_trans (eq_sym Hn) H1) as Heq. injection Heq as -> ->.
  rewrite checkRegion_origins in Ho.
  apply list_elem_of_In, list_elem_of_lookup in Ho as [j Hj].
  rewrite list_lookup_imap in Hj.
  destruct (origins r0 !! j) as [o0|]; [|discriminate].
  injection Hj as <-. now apply checkOrigin_healthy_bound.
Qed.

Lemma sweep_healthy_under_three_witness :
  (consecutiveFailures
     {| o_id := "steady"; url := "https://steady"; weight := 1;
        healthy := true; lastCheck := 1010; latencyMs := inject_Z 10;
        consecutiveFailures := 0 |} < 3)%Z.
Proof.
  apply (sweep_healthy_under_three Examples.slowError Examples.pair ∅ "pair"
           (Examples.region_ "pair"
              [ {| o_id := "steady"; url := "https://steady"; weight := 1;
                   healthy := true; lastCheck := 1010;
                   latencyMs := inject_Z 10; consecutiveFailures := 0 |};
                {| o_id := "shaky"; url := "https://shaky"; weight := 1;
                   healthy := false; lastCheck := 1040;
                   latencyMs := inject_Z 30; consecutiveFailures := 3 |} ]
              ["US"] None)).
  - left. reflexivity.
  - left. reflexivity.
  - reflexivity.
Defined.

Section StatusViews.

Lemma lookup_map {A B} (f : A → B) (l : list A) (i : nat) :
  map f l !! i = f <$> l !! i.
Proof.
  revert i. induction l as [|x l IH]; intros [|i]; simpl; auto.
Qed.

Lemma filter_all {A} (P : A → Prop) `{∀ x, Decision (P x)} (l : list A) :
  Forall P l → filter P l = l.
Proof.
  induction 1 as [|x l Hx _ IH]; [reflexivity|].
  rewrite filter_cons, decide_True by exact Hx. now rewrite IH.
Qed.

Lemma healthy_count (os : list Origin) :
  existsb healthy os
  = (0 <? Z.of_nat (length (filter (fun o => healthy o = true) os)))%Z.
Proof.
  induction os as [|o os IH]; [reflexivity|].
  rewrite filter_cons. simpl. destruct (healthy o) eqn:E.
  - rewrite decide_True by reflexivity. simpl.
    symmetry. apply Z.ltb_lt. lia.
  - rewrite decide_False by discriminate. exact IH.
Qed.

Lemma fold_max_spec (l : list Z) : ∀ t,
  (t <= fold_left Z.max l t)%Z ∧
  (∀ x, In x l → (x <= fold_left Z.max l t)%Z) ∧
  (fold_left Z.max l t = t ∨ In (fold_left Z.max l t) l).
Proof.
  induction l as [|y l IH]; intros t; simpl.
  - repeat split; [lia | tauto | now left].
  - destruct (IH (Z.max t y)) as (H1 & H2 & H3). repeat split.
    + lia.
    + intros x [<-|Hx]; [lia | now apply H2].
    + destruct H3 as [H3|H3]; [|right; now right].
      destruct (Z.max_spec t y) as [[_ E]|[_ E]].
      * right. left. congruence.
      * left. congruence.
Qed.

Lemma latency_from (l : list Origin) : ∀ a,
  (fold_left (fun s o => s + latencyMs o) l a
   == a + fold_left (fun s o => s + latencyMs o) l 0)%Q.
Proof.
  induction l as [|o l IH]; intros a; simpl; [lra|].
  rewrite (IH (a + latencyMs o)%Q), (IH (0 + latencyMs o)%Q). lra.
Qed.

(** A region all of whose probes are answered with an ok response. *)
Lemma all_ok_sweep probes os : ∀ j,
  (∀ n, (n < length os)%nat →
        ∃ e, outcome (probes (j + n)%nat) = Responded true e) →
  Forall (fun o => healthy o = true)
         (imap (fun n o => (checkOrigin o (probes (j + n)%nat)).1.1) os) ∧
  (fold_left (fun s o => s + latencyMs o)
             (imap (fun n o => (checkOrigin o (probes (j + n)%nat)).1.1) os) 0
   == inject_Z (respondedLatency probes j (length os)))%Q ∧
  okCount probes j (length os) = Z.of_nat (length os).
Proof.
  induction os as [|o os IH]; intros j Hok.
  - simpl. repeat split. constructor.
  - cbn [imap length okCount respondedLatency].
    destruct (Hok 0%nat ltac:(simpl; lia)) as [e He].
    rewrite Nat.add_0_r in He |- *.
    rewrite (imap_ext _ (fun n o => (checkOrigin o (probes (S j + n)%nat)).1.1))
      by (intros; cbn; now rewrite Nat.add_succ_r).
    destruct (IH (S j)) as (Hh & Hsum & Hcount).
    { intros n Hn. destruct (Hok (S n) ltac:(simpl; lia)) as [e' He'].
      exists e'. now rewrite Nat.add_succ_r in He'. }
    rewrite He, Hcount.
    assert ((checkOrigin o (probes j)).1.1
            = setLastCheck (setHealth o true (inject_Z e) 0)
                           (checkedAt (probes j))) as ->
      by (unfold checkOrigin, recordOutcome; now rewrite He).
    split; [constructor; [reflexivity | exact Hh]|].
    split; [|lia].
    cbn [fold_left]. rewrite latency_from, Hsum.
    cbn [latencyMs setLastCheck setHealth]. rewrite inject_Z_plus. lra.
Qed.

End StatusViews.

(** X17. When every origin of a region answers its probe with an ok
    response, the summary the sweep returns for that region and the status
    [getHealthStatus] then computes from the swept directory agree on the
    health flag, the number of available origins, the total and the average
    latency. *)
Theorem sweep_agrees_with_status (env : HealthEnv) (regions : Regions)
    (kv : gmap string (KVValue * option Z)) (i : nat) (k : string)
    (r : Region) :
  regions !! i = Some (k, r) →
  (∀ j, (j < length (origins r))%nat →
        ∃ e, outcome (probe env i j) = Responded true e) →
  ∃ st v,
    (performHealthChecks env regions kv).2 !! i = Some (k, st) ∧
    getHealthStatus (performHealthChecks env regions kv).1.1 !! i = Some v ∧
    v_regionId v = h_regionId st ∧
    v_healthy v = h_healthy st ∧
    v_availableOrigins v = availableOrigins st ∧
    v_totalOrigins v = totalOrigins st ∧
    (v_avgLatencyMs v == avgLatencyMs st)%Q.
Proof.
  intros Hi Hok.
  rewrite performHealthChecks_results, performHealthChecks_regions.
  destruct (checkRegions_lookup env regions 0 i k r Hi) as [H1 H2].
  cbn [Nat.add] in H1, H2.
  exists (checkRegion env i k r).2, (healthView k (checkRegion env i k r).1).
  split; [exact H2|].
  split; [unfold getHealthStatus; rewrite lookup_map;
          change (list (string * Region)) with Regions; now rewrite H1|].
  pose proof (checkRegion_origins env i k r) as Hos.
  destruct (all_ok_sweep (probe env i) (origins r) 0 Hok)
    as (Hh & Hsum & Hcount).
  cbn [Nat.add] in Hh, Hsum. rewrite <- Hos in Hh, Hsum.
  unfold healthView, getAverageLatency.
  rewrite (filter_all _ _ Hh).
  assert (length (origins (checkRegion env i k r).1) = length (origins r))
    as Hlen by (rewrite Hos; apply length_imap).
  unfold checkRegion in *.
  destruct (checkOrigins_spec (probe env i) (origins r) 0 0%Z 0%Z)
    as (_ & Hc & Hl).
  destruct (checkOrigins (probe env i) 0 (origins r) 0 0) as [[os hc] tl].
  cbn [fst snd origins setOrigins h_regionId h_healthy availableOrigins
       totalOrigins avgLatencyMs v_regionId v_healthy v_availableOrigins
       v_totalOrigins v_avgLatencyMs] in *.
  subst hc tl. rewrite Hcount, !Z.add_0_l, Hlen.
  repeat split.
  destruct os as [|o' os']; destruct (origins r) as [|o0 os0];
    try discriminate Hlen; [reflexivity|].
  rewrite Hsum. reflexivity.
Qed.

Lemma sweep_agrees_with_status_witness :
  ∃ st v,
    (performHealthChecks MoreExamples.allOk Examples.pair ∅).2 !! 0%nat
      = Some ("pair", st) ∧
    getHealthStatus (performHealthChecks MoreExamples.allOk Examples.pair ∅).1.1
      !! 0%nat = Some v ∧
    v_regionId v = h_regionId st ∧
    v_healthy v = h_healthy st ∧
    v_availableOrigins v = availableOrigins st ∧
    v_totalOrigins v = totalOrigins st ∧
    (v_avgLatencyMs v == avgLatencyMs st)%Q.
Proof.
  apply (sweep_agrees_with_status MoreExamples.allOk Examples.pair ∅ 0 "pair"
           (Examples.region_ "pair" [Examples.steady; Examples.shaky]
                             ["US"] None)).
  - reflexivity.
  - intros j _. exists 15%Z. reflexivity.
Defined.

(** X18. [getHealthStatus] gives one status per directory entry, in order.
    The status of a region is flagged healthy exactly when the region has a
    healthy origin; its available count lies between 0 and the total; with
    no healthy origin the count and the average are 0; and its [lastCheck]
    is the latest [lastCheck] among the region's origins, or [-Infinity]
    when the region has no origin. *)
Theorem getHealthStatus_view (regions : Regions) (i : nat) (k : string)
    (r : Region) :
  regions !! i = Some (k, r) →
  length (getHealthStatus regions) = length regions ∧
  ∃ v,
    getHealthStatus regions !! i = Some v ∧
    v_regionId v = k ∧
    v_healthy v = isRegionHealthy r ∧
    (0 <= v_availableOrigins v <= v_totalOrigins v)%Z ∧
    (isRegionHealthy r = false →
     v_availableOrigins v = 0%Z ∧ v_avgLatencyMs v = 0%Q) ∧
    match v_lastCheck v with
    | NegInfinity => origins r = []
    | Time t =>
        (∃ o, In o (origins r) ∧ lastCheck o = t) ∧
        ∀ o, In o (origins r) → (lastCheck o <= t)%Z
    end.
Proof.
  intros Hi. split; [unfold getHealthStatus; apply length_map|].
  exists (healthView k r). split.
  { unfold getHealthStatus. rewrite lookup_map.
    change (list (string * Region)) with Regions. now rewrite Hi. }
  unfold healthView. cbn.
  split; [reflexivity|]. split; [symmetry; apply healthy_count|].
  split; [pose proof (length_filter (fun o => healthy o = true) (origins r)); lia|].
  split.
  - intros Hdown. unfold getAverageLatency.
    assert (filter (fun o => healthy o = true) (origins r) = []) as ->; [|now split].
    apply isRegionHealthy_false in Hdown.
    induction Hdown as [|o os Ho _ IH]; [reflexivity|].
    rewrite filter_cons, decide_False by congruence. exact IH.
  - destruct (origins r) as [|o os]; [reflexivity|]. cbn [map Math_max].
    destruct (fold_max_spec (map lastCheck os) (lastCheck o)) as (H1 & H2 & H3).
    split.
    + destruct H3 as [H3|H3].
      * exists o. split; [now left | now rewrite H3].
      * apply in_map_iff in H3 as (o' & Ho' & Hin). exists o'. split; [now right | exact Ho'].
    + intros o' [<-|Hin]; [exact H1|]. apply H2, in_map. exact Hin.
Qed.

Lemma getHealthStatus_view_witness :
  length (getHealthStatus Examples.danglingRegions)
    = length Examples.danglingRegions ∧
  ∃ v,
    getHealthStatus Examples.danglingRegions !! 2%nat = Some v ∧
    v_regionId v = "ap" ∧
    v_healthy v = isRegionHealthy Examples.tokyo ∧
    (0 <= v_availableOrigins v <= v_totalOrigins v)%Z ∧
    (isRegionHealthy Examples.tokyo = false →
     v_availableOrigins v = 0%Z ∧ v_avgLatencyMs v = 0%Q) ∧
    match v_lastCheck v with
    | NegInfinity => origins Examples.tokyo = []
    | Time t =>
        (∃ o, In o (origins Examples.tokyo) ∧ lastCheck o = t) ∧
        ∀ o, In o (origins Examples.tokyo) → (lastCheck o <= t)%Z
    end.
Proof.
  apply (getHealthStatus_view Examples.danglingRegions 2 "ap" Examples.tokyo).
  reflexivity.
Defined.

(** ** Replication, beyond the failing paths *)

Section Copies.

Context (env : ReplEnv) (totalPaths : Z).

Lemma replicateTargets_frame path src targets : ∀ st key,
  (∀ t, In t targets → key ≠ t +:+ "/" +:+ path) →
  rs_bucket (replicateTargets env totalPaths path src targets st) !! key
  = rs_bucket st !! key.
Proof.
  induction targets as [|t ts IH]; intros st key Hkey; [reflexivity|].
  cbn [replicateTargets].
  destruct (putError env (rs_puts st)) as [message|];
    rewrite IH by (intros t' Ht'; apply Hkey; now right);
    cbn [rs_bucket]; [reflexivity|].
  apply lookup_insert_ne. intros E. apply (Hkey t); [now left | now symmetry].
Qed.

Lemma replicatePaths_frame ps : ∀ st key,
  (∀ t p, In t (targetRegions (rs_job st)) → In p ps →
          key ≠ t +:+ "/" +:+ p) →
  rs_bucket (replicatePaths env totalPaths ps st) !! key = rs_bucket st !! key.
Proof.
  induction ps as [|p ps IH]; intros st key Hkey; [reflexivity|].
  cbn [replicatePaths].
  destruct (rs_bucket st !! _) as [src|] eqn:E.
  - destruct (replicateTargets_spec env totalPaths p src
                (targetRegions (rs_job st)) st) as ((_ & _ & HT & _) & _).
    rewrite IH.
    + apply replicateTargets_frame. intros t Ht. apply Hkey; [exact Ht | now left].
    + rewrite HT. intros t q Ht Hq. apply Hkey; [exact Ht | now right].
  - rewrite IH; [reflexivity|].
    cbn [rs_job pushError targetRegions].
    intros t q Ht Hq. apply Hkey; [exact Ht | now right].
Qed.




Lemma putErrors_in path targets : ∀ n e,
  In e (putErrors env path n targets) →
  ∃ t k message,
    In t targets ∧ putError env k = Some message ∧
    e = writeFailure path t message.
Proof.
  induction targets as [|t ts IH]; intros n e; cbn [putErrors]; [intros []|].
  intros [He|He]%in_app_or.
  - destruct (putError env n) as [message|] eqn:E; [|destruct He].
    destruct He as [<-|[]]. exists t, n, message. split; [now left | now split].
  - destruct (IH _ _ He) as (t' & k & m & Ht & Hk & ->).
    exists t', k, m. split; [now right | now split].
Qed.

Lemma replicatePaths_errors ps : ∀ st e,
  In e (errors (rs_job (replicatePaths env totalPaths ps st))) →
  In e (errors (rs_job st)) ∨
  (∃ p, In p ps ∧ e = sourceMissing p) ∨
  (∃ p t k message,
     In p ps ∧ In t (targetRegions (rs_job st)) ∧
     putError env k = Some message ∧ e = writeFailure p t message).
Proof.
  induction ps as [|p ps IH]; intros st e He; [now left|].
  cbn [replicatePaths] in He.
  destruct (rs_bucket st !! _) as [src|] eqn:E.
  - destruct (replicateTargets_spec env totalPaths p src
                (targetRegions (rs_job st)) st)
      as ((_ & _ & HT & _) & _ & _ & Herr1 & _).
    destruct (IH _ _ He) as [H|[(q & Hq & ->)|(q & t & k & m & Hq & Ht & Hk & ->)]].
    + rewrite Herr1 in H. apply in_app_or in H as [H|H]; [now left|].
      destruct (putErrors_in _ _ _ _ H) as (t & k & m & Ht & Hk & ->).
      right. right. exists p, t, k, m. repeat split; auto. now left.
    + right. left. exists q. split; [now right | reflexivity].
    + right. right. exists q, t, k, m. rewrite HT in Ht.
      repeat split; auto. now right.
  - destruct (IH _ _ He) as [H|[(q & Hq & ->)|(q & t & k & m & Hq & Ht & Hk & ->)]].
    + cbn [rs_job pushError errors] in H.
      apply in_app_or in H as [H|[<-|[]]]; [now left|].
      right. left. exists p. split; [now left | reflexivity].
    + right. left. exists q. split; [now right | reflexivity].
    + right. right. exists q, t, k, m. repeat split; auto. now right.
Qed.

Lemma allPutErrors_none ps targets :
  (∀ n, putError env n = None) → ∀ n, allPutErrors env n ps targets = [].
Proof.
  intros Hnone.
  assert (∀ path ts n, putErrors env path n ts = []) as Hput.
  { intros path ts. induction ts as [|t ts IH]; intros n; cbn [putErrors];
      [reflexivity|]. now rewrite Hnone, IH. }
  induction ps as [|p ps IH]; intros n; cbn [allPutErrors]; [reflexivity|].
  now rewrite Hput, IH.
Qed.

End Copies.

Section RunOutcome.

Context (env : ReplEnv) (now : Z) (w : Replicator) (job : ReplicationJob).

Lemma runReplication_bucket :
  bucket (runReplication env now w job).1
  = rs_bucket (replicationLoop env (bucket w) job).
Proof. reflexivity. Qed.

Lemma replicationLoop_spec :
  sameJob (setStatus job Running)
          (rs_job (replicationLoop env (bucket w) job)) ∧
  (0 <= rs_completed (replicationLoop env (bucket w) job)
   <= totalPathsOf job)%Z.
Proof.
  unfold replicationLoop, runPaths.
  match goal with
  | |- context [replicatePaths _ ?t ?ps ?s] =>
      destruct (replicatePaths_spec env t ps s) as (Hsame & Hdone & _)
  end.
  split; [exact Hsame|].
  unfold totalPathsOf in *.
  cbn [rs_job rs_completed setStatus targetRegions paths] in *. lia.
Qed.

End RunOutcome.

(** The job that [startReplication] returns is the one its table holds, and
    the run has begun on it: it is ['running'] while there is a path to
    fetch, and with no path it is already closed, as [runReplication] closes
    it. *)
Lemma startReplication_snapshot (uuid : string) (now doneAt : Z)
    (w : Replicator) (source : string) (targets ps : list string) :
  getJobStatus (startReplication uuid now doneAt w source targets ps).1 uuid
    = Some (startReplication uuid now doneAt w source targets ps).2 ∧
  status (startReplication uuid now doneAt w source targets ps).2 ≠ Pending ∧
  (ps ≠ [] →
   (startReplication uuid now doneAt w source targets ps).2
     = setStatus (newJob uuid now source targets ps) Running) ∧
  (ps = [] →
   ∀ env,
     (startReplication uuid now doneAt w source targets ps).2
       = (runReplication env doneAt w
            (newJob uuid now source targets ps)).2).
Proof.
  split; [|split; [|split]].
  - unfold getJobStatus, startReplication. cbn [fst snd jobs].
    destruct ps; apply lookup_insert_eq.
  - destruct ps; discriminate.
  - destruct ps; [congruence | reflexivity].
  - intros -> env. reflexivity.
Qed.

(** X19. The progress of a job that starts at 0 ends between 0 and 100, and
    the number of completed writes between 0 and
    [paths.length * targetRegions.length]. *)
Theorem replication_progress_range (env : ReplEnv) (now : Z) (w : Replicator)
    (job : ReplicationJob) :
  progress job = 0%Z →
  (0 <= progress (runReplication env now w job).2 <= 100)%Z ∧
  (0 <= rs_completed (replicationLoop env (bucket w) job)
   <= totalPathsOf job)%Z.
Proof.
  intros H0. destruct (replicationLoop_spec env w job) as [_ Hdone].
  split; [|exact Hdone].
  rewrite runReplication_progress, (replicationLoop_tracks env w job H0).
  now apply progressOf_range.
Qed.

Lemma replication_progress_range_witness :
  (0 <= progress (runReplication Examples.thirdWriteFails 900
                    Examples.oneObject
                    (newJob "j-4" 100 "src" ["eu"; "ap"; "us"]
                            ["a"; "gone"])).2 <= 100)%Z ∧
  (0 <= rs_completed (replicationLoop Examples.thirdWriteFails
                        (bucket Examples.oneObject)
                        (newJob "j-4" 100 "src" ["eu"; "ap"; "us"]
                                ["a"; "gone"]))
   <= totalPathsOf (newJob "j-4" 100 "src" ["eu"; "ap"; "us"]
                           ["a"; "gone"]))%Z.
Proof.
  apply (replication_progress_range Examples.thirdWriteFails 900
           Examples.oneObject
           (newJob "j-4" 100 "src" ["eu"; "ap"; "us"] ["a"; "gone"])).
  reflexivity.
Defined.

(** X20. The footprint of a run.  No object of the bucket is ever removed;
    a key that is not [<target>/<path>] for a target region and a path of
    the job holds after the run what it held before; in the key-value
    namespace only [replication:<id>] is written, and in the job table only
    the job's own entry. *)
Theorem replication_footprint (env : ReplEnv) (now : Z) (w : Replicator)
    (job : ReplicationJob) :
  (∀ key, is_Some (bucket w !! key) →
          is_Some (bucket (runReplication env now w job).1 !! key)) ∧
  (∀ key,
     (∀ t p, In t (targetRegions job) → In p (paths job) →
             key ≠ t +:+ "/" +:+ p) →
     bucket (runReplication env now w job).1 !! key = bucket w !! key) ∧
  (∀ key, key ≠ "replication:" +:+ j_id job →
          kv (runReplication env now w job).1 !! key = kv w !! key) ∧
  (∀ id, id ≠ j_id job →
         jobs (runReplication env now w job).1 !! id = jobs w !! id).
Proof.
  pose proof (runReplication_id env now w job) as Hid.
  split; [|split; [|split]].
  - intros key Hk. rewrite runReplication_bucket.
    unfold replicationLoop, runPaths.
    now apply replicatePaths_spec.
  - intros key Hkey. rewrite runReplication_bucket.
    unfold replicationLoop, runPaths.
    now apply replicatePaths_frame.
  - intros key Hkey. rewrite <- Hid in Hkey.
    unfold runReplication, kv_put in *. cbn [fst snd kv] in *.
    now apply lookup_insert_ne.
  - intros id Hne. rewrite <- Hid in Hne.
    unfold runReplication in *. cbn [fst snd jobs] in *.
    now apply lookup_insert_ne.
Qed.



(** X22. When no write throws and every source object is in the bucket at
    the start, a new job ends ['completed'] with no error; its progress is
    100 if there is at least one path and one target region, and stays 0 if
    the list of paths or the list of targets is empty. *)
Theorem replication_all_copied (env : ReplEnv) (now : Z) (w : Replicator)
    (uuid : string) (t0 : Z) (src : string) (targets ps : list string) :
  (∀ n, putError env n = None) →
  Forall (fun p => is_Some (bucket w !! (src +:+ "/" +:+ p))) ps →
  status (runReplication env now w (newJob uuid t0 src targets ps)).2
    = Completed ∧
  errors (runReplication env now w (newJob uuid t0 src targets ps)).2 = [] ∧
  (ps ≠ [] → targets ≠ [] →
   progress (runReplication env now w (newJob uuid t0 src targets ps)).2
     = 100%Z) ∧
  (ps = [] ∨ targets = [] →
   progress (runReplication env now w (newJob uuid t0 src targets ps)).2
     = 0%Z).
Proof.
  intros Hnone Hall.
  set (job := newJob uuid t0 src targets ps).
  assert (errors (runReplication env now w job).2 = []) as Herr.
  { rewrite runReplication_errors. unfold replicationLoop, runPaths.
    match goal with
    | |- errors (rs_job (replicatePaths _ ?t ?l ?s)) = _ =>
        destruct (replicatePaths_all_present env t l s) as (_ & ->);
          [exact Hall|]
    end.
    now rewrite allPutErrors_none. }
  split; [now rewrite runReplication_status, Herr|].
  split; [exact Herr|]. split.
  - intros Hps Hts. now apply runReplication_full_progress.
  - intros Hempty.
    rewrite runReplication_progress, (replicationLoop_tracks env w job eq_refl).
    unfold replicationLoop, runPaths.
    match goal with
    | |- progressOf (rs_completed (replicatePaths _ ?t ?l ?s)) _ = _ =>
        destruct (replicatePaths_all_present env t l s) as (-> & _);
          [exact Hall|]
    end.
    cbn [rs_job rs_completed setStatus targetRegions job newJob paths].
    assert (Z.of_nat (length ps) * Z.of_nat (length targets) = 0)%Z as ->
      by (destruct Hempty as [-> | ->]; simpl; lia).
    apply progressOf_zero.
Qed.

Lemma replication_all_copied_witness :
  status (runReplication Examples.calm 900 Examples.twoObjects
            (newJob "j-6" 100 "src" ["eu"] ["a"; "b"])).2 = Completed ∧
  errors (runReplication Examples.calm 900 Examples.twoObjects
            (newJob "j-6" 100 "src" ["eu"] ["a"; "b"])).2 = [] ∧
  (["a"; "b"] ≠ [] → ["eu"] ≠ [] →
   progress (runReplication Examples.calm 900 Examples.twoObjects
               (newJob "j-6" 100 "src" ["eu"] ["a"; "b"])).2 = 100%Z) ∧
  (["a"; "b"] = [] ∨ ["eu"] = [] →
   progress (runReplication Examples.calm 900 Examples.twoObjects
               (newJob "j-6" 100 "src" ["eu"] ["a"; "b"])).2 = 0%Z).
Proof.
  apply (replication_all_copied Examples.calm 900 Examples.twoObjects
           "j-6" 100 "src" ["eu"] ["a"; "b"]).
  - reflexivity.
  - repeat constructor; vm_compute; eauto.
Defined.

(** X23. Every entry of a finished new job's error list is one of the two
    messages of the run: "Source not found" for one of the job's paths, or
    "Failed to replicate" for one of its paths and one of its target regions
    with the message of a write that threw. *)
Theorem replication_errors_classified (env : ReplEnv) (now : Z)
    (w : Replicator) (uuid : string) (t0 : Z) (src : string)
    (targets ps : list string) (e : string) :
  In e (errors (runReplication env now w
                  (newJob uuid t0 src targets ps)).2) →
  (∃ p, In p ps ∧ e = sourceMissing p) ∨
  (∃ p t k message,
     In p ps ∧ In t targets ∧ putError env k = Some message ∧
     e = writeFailure p t message).
Proof.
  rewrite runReplication_errors. unfold replicationLoop, runPaths.
  intros He. apply replicatePaths_errors in He as [[]|He]. exact He.
Qed.

Lemma replication_errors_classified_witness :
  (∃ p, In p ["a"; "b"] ∧
        "Failed to replicate b to eu: quota exceeded" = sourceMissing p) ∨
  (∃ p t k message,
     In p ["a"; "b"] ∧ In t ["eu"; "ap"] ∧
     putError Examples.thirdWriteFails k = Some message ∧
     "Failed to replicate b to eu: quota exceeded"
       = writeFailure p t message).
Proof.
  apply (replication_errors_classified Examples.thirdWriteFails 900
           Examples.twoObjects "j-7" 100 "src" ["eu"; "ap"] ["a"; "b"]).
  vm_compute. left. reflexivity.
Defined.

(** X24. A run never rewrites the request: the finished job has the id, the
    source region, the target regions, the paths and the start time of the
    job it was given, and its status is one of the two terminal ones. *)
Theorem replication_keeps_request (env : ReplEnv) (now : Z) (w : Replicator)
    (job : ReplicationJob) :
  j_id (runReplication env now w job).2 = j_id job ∧
  sourceRegion (runReplication env now w job).2 = sourceRegion job ∧
  targetRegions (runReplication env now w job).2 = targetRegions job ∧
  paths (runReplication env now w job).2 = paths job ∧
  startedAt (runReplication env now w job).2 = startedAt job ∧
  (status (runReplication env now w job).2 = Completed ∨
   status (runReplication env now w job).2 = Failed).
Proof.
  destruct (replicationLoop_spec env w job)
    as [(Hid & Hsrc & HT & Hps & _ & Hstart & _) _].
  rewrite runReplication_status.
  rewrite runReplication_job.
  cbn [j_id sourceRegion targetRegions paths startedAt errors setCompletedAt
       setStatus] in *.
  repeat split; try assumption.
  destruct (errors _); [now left | now right].
Qed.

(** ** Listing jobs *)

Section Listing.

(** Most recent first. *)
Let newerFirst (a b : ReplicationJob) : Prop := (startedAt b <= startedAt a)%Z.

Lemma insertJob_perm a l : insertJob a l ≡ₚ a :: l.
Proof.
  induction l as [|b l IH]; simpl; [reflexivity|].
  destruct (_ <=? _)%Z; [reflexivity|].
  rewrite IH. apply Permutation_swap.
Qed.

Lemma insertJob_sorted a l :
  Sorted newerFirst l → Sorted newerFirst (insertJob a l).
Proof.
  induction 1 as [|b l Hl IH Hhd]; simpl.
  - repeat constructor.
  - destruct (startedAt b - startedAt a <=? 0)%Z eqn:E.
    + constructor; [now constructor|]. constructor.
      unfold newerFirst. apply Z.leb_le in E. lia.
    + constructor; [exact IH|].
      apply Z.leb_gt in E.
      destruct l as [|c l]; simpl.
      * constructor. unfold newerFirst. lia.
      * inversion Hhd as [|? ? Hbc]; subst.
        destruct (_ <=? _)%Z; constructor; [unfold newerFirst; lia | exact Hbc].
Qed.

Lemma sortJobs_perm l : sortJobs l ≡ₚ l.
Proof.
  induction l as [|a l IH]; simpl; [reflexivity|].
  now rewrite insertJob_perm, IH.
Qed.

Lemma sortJobs_sorted l : StronglySorted newerFirst (sortJobs l).
Proof.
  apply Sorted_StronglySorted.
  - intros a b c. unfold newerFirst. lia.
  - induction l as [|a l IH]; simpl; [constructor|].
    now apply insertJob_sorted.
Qed.

Lemma fetchJobs_spec kv names : ∀ fetched,
  fetchJobs kv names = Some fetched →
  (length fetched <= length names)%nat ∧
  ∀ j, In j fetched →
       ∃ name ttl, In name names ∧ kv !! name = Some (KVJob j, ttl).
Proof.
  induction names as [|name names IH]; intros fetched; cbn [fetchJobs].
  - intros [= <-]. split; [reflexivity | intros j []].
  - destruct (kv !! name) as [[[data|data|] ttl]|] eqn:E; try discriminate.
    + destruct (fetchJobs kv names) as [jobs|]; [|discriminate].
      intros [= <-]. destruct (IH jobs eq_refl) as [Hlen Hin].
      split; [simpl; lia|].
      intros j [<-|Hj].
      * exists name, ttl. split; [now left | exact E].
      * destruct (Hin j Hj) as (n & t & Hn & Hk).
        exists n, t. split; [now right | exact Hk].
    + intros H. destruct (IH fetched H) as [Hlen Hin].
      split; [simpl; lia|].
      intros j Hj. destruct (Hin j Hj) as (n & t & Hn & Hk).
      exists n, t. split; [now right | exact Hk].
Qed.

End Listing.

(** X25. When every listed key holds a job record (or nothing), [listJobs]
    returns the records fetched, each exactly as often as it was fetched,
    ordered so that no job comes before one that started later; every job
    returned is a record of the namespace under a listed key, and there are
    at most as many as listed keys. *)
Theorem listJobs_sorted (kvList : string → Z → list string)
    (kv : gmap string (KVValue * option Z)) (limit : option Z)
    (jobs : list ReplicationJob) :
  listJobs kvList kv limit = Some jobs →
  StronglySorted (fun a b => (startedAt b <= startedAt a)%Z) jobs ∧
  (∃ fetched,
     fetchJobs kv (kvList "replication:" (default 50%Z limit)) = Some fetched ∧
     jobs ≡ₚ fetched) ∧
  (length jobs <= length (kvList "replication:" (default 50%Z limit)))%nat ∧
  ∀ j, In j jobs →
       ∃ name ttl,
         In name (kvList "replication:" (default 50%Z limit)) ∧
         kv !! name = Some (KVJob j, ttl).
Proof.
  unfold listJobs.
  destruct (fetchJobs kv _) as [fetched|] eqn:E; [|discriminate].
  intros [= <-]. destruct (fetchJobs_spec _ _ _ E) as [Hlen Hin].
  pose proof (sortJobs_perm fetched) as Hperm.
  split; [apply sortJobs_sorted|].
  split; [exists fetched; now split|].
  split; [now rewrite Hperm|].
  intros j Hj. apply Hin.
  apply list_elem_of_In. rewrite <- Hperm. now apply list_elem_of_In.
Qed.

Lemma listJobs_sorted_witness :
  StronglySorted (fun a b => (startedAt b <= startedAt a)%Z)
                 [MoreExamples.late; MoreExamples.early] ∧
  (∃ fetched,
     fetchJobs MoreExamples.jobStore
               (MoreExamples.jobListing "replication:" (default 50%Z None))
       = Some fetched ∧
     [MoreExamples.late; MoreExamples.early] ≡ₚ fetched) ∧
  (length [MoreExamples.late; MoreExamples.early]
   <= length (MoreExamples.jobListing "replication:" (default 50%Z None)))%nat ∧
  ∀ j, In j [MoreExamples.late; MoreExamples.early] →
       ∃ name ttl,
         In name (MoreExamples.jobListing "replication:" (default 50%Z None)) ∧
         MoreExamples.jobStore !! name = Some (KVJob j, ttl).
Proof.
  apply (listJobs_sorted MoreExamples.jobListing MoreExamples.jobStore None
           [MoreExamples.late; MoreExamples.early]).
  vm_compute. reflexivity.
Defined.

(** ** The region-scoped cache *)

Section CacheFacts.

Implicit Types (kv : gmap string (KVValue * option Z)).

Lemma append_assoc (a b c : string) : (a +:+ b) +:+ c = a +:+ (b +:+ c).
Proof.
  induction a as [|x a IH]; [reflexivity|].
  change (String x ((a +:+ b) +:+ c) = String x (a +:+ (b +:+ c))).
  now f_equal.
Qed.

Lemma getCacheKey_region_inj path r1 r2 :
  getCacheKey path r1 = getCacheKey path r2 → r1 = r2.
Proof.
  unfold getCacheKey. intros H.
  apply (String.app_inj "cache:") in H. now apply append_cancel_r in H.
Qed.

Lemma getCacheKey_path_inj region p1 p2 :
  getCacheKey p1 region = getCacheKey p2 region → p1 = p2.
Proof.
  unfold getCacheKey. intros H.
  apply (String.app_inj "cache:"), (String.app_inj region) in H.
  now injection H.
Qed.

Lemma colonFree_split r1 : ∀ r2 p1 p2,
  colonFree r1 = true → colonFree r2 = true →
  r1 +:+ ":" +:+ p1 = r2 +:+ ":" +:+ p2 → r1 = r2 ∧ p1 = p2.
Proof.
  induction r1 as [|c r1 IH]; intros [|d r2] p1 p2 H1 H2 H; cbn in H, H1, H2.
  - injection H as H. now subst.
  - injection H as Hd _. subst d. apply andb_true_iff in H2 as [H2 _].
    now vm_compute in H2.
  - injection H as Hc _. subst c. apply andb_true_iff in H1 as [H1 _].
    now vm_compute in H1.
  - injection H as -> H.
    apply andb_true_iff in H1 as [_ H1]. apply andb_true_iff in H2 as [_ H2].
    destruct (IH _ _ _ H1 H2 H) as [-> ->]. now split.
Qed.

Lemma getCached_lookup regions kv path cf rnd d :
  route regions cf rnd = Ok d →
  getCached regions kv path cf rnd
  = match kv !! getCacheKey path (r_id (d_region d)) with
    | None => Ok None
    | Some (KVCacheEntry body contentType _ _, _) =>
        Ok (Some {| c_content := Some body;
                    c_contentType := Some contentType;
                    c_regionId := r_id (d_region d) |})
    | Some (_, _) =>
        Ok (Some {| c_content := None; c_contentType := None;
                    c_regionId := r_id (d_region d) |})
    end.
Proof. unfold getCached. now intros ->. Qed.

Lemma purgeLoop_spec path ids : ∀ kv n,
  (purgeLoop path ids kv n).2 = (n + Z.of_nat (length ids))%Z ∧
  (∀ id, In id ids →
         (purgeLoop path ids kv n).1 !! getCacheKey path id = None) ∧
  (∀ key, kv !! key = None → (purgeLoop path ids kv n).1 !! key = None) ∧
  (∀ key, (∀ id, In id ids → key ≠ getCacheKey path id) →
          (purgeLoop path ids kv n).1 !! key = kv !! key).
Proof.
  induction ids as [|id ids IH]; intros kv n; cbn [purgeLoop].
  - split; [simpl; lia|]. split; [intros id []|]. split; auto.
  - destruct (IH (delete (getCacheKey path id) kv) (n + 1)%Z)
      as (Hn & Hdel & Hnone & Hframe).
    split; [rewrite Hn; simpl; lia|]. split; [|split].
    + intros id' [<-|Hin]; [|now apply Hdel].
      apply Hnone. apply lookup_delete_eq.
    + intros key Hk. apply Hnone.
      destruct (decide (getCacheKey path id = key)) as [<-|Hne];
        [apply lookup_delete_eq | now rewrite lookup_delete_ne].
    + intros key Hkey. rewrite Hframe by (intros; apply Hkey; now right).
      apply lookup_delete_ne. intros E. apply (Hkey id); [now left | now symmetry].
Qed.

Lemma cache_holds kv path regionId content contentType ttl e c key :
  holds kv key content contentType (default 3600%Z ttl) ∨
  key = getCacheKey path regionId →
  holds (cache kv path regionId content contentType ttl e c)
        key content contentType (default 3600%Z ttl).
Proof.
  unfold cache, kv_put, holds. intros Hk.
  destruct (decide (key = getCacheKey path regionId)) as [->|Hne].
  - eexists _, _. now rewrite lookup_insert_eq.
  - destruct Hk as [(etag & at_ & Hl)|]; [|contradiction].
    exists etag, at_. now rewrite lookup_insert_ne by congruence.
Qed.

Lemma warmLoop_holds clock path content contentType ttl ids : ∀ n kv,
  (∀ key, holds kv key content contentType (default 3600%Z ttl) →
          holds (warmLoop clock n path content contentType ttl ids kv)
                key content contentType (default 3600%Z ttl)) ∧
  (∀ id, In id ids →
         holds (warmLoop clock n path content contentType ttl ids kv)
               (getCacheKey path id) content contentType
               (default 3600%Z ttl)).
Proof.
  induction ids as [|id ids IH]; intros n kv; cbn [warmLoop].
  - split; [auto | intros id []].
  - match goal with
    | |- context [warmLoop _ _ _ _ _ _ ids ?k] =>
        destruct (IH (S n) k) as [Hmono Hnew]
    end.
    pose proof (cache_holds kv path id content contentType
                  (Some (default 3600%Z ttl)) (clock n).1 (clock n).2) as Hc.
    cbn [default] in Hc.
    split.
    + intros key Hk. apply Hmono, Hc. now left.
    + intros id' [<-|Hin]; [|now apply Hnew].
      apply Hmono, Hc. now right.
Qed.

Lemma registered_id regions r :
  keyedById regions → In r (OMap.values regions) →
  In (r_id r) (OMap.keys regions).
Proof.
  intros [Hkey _] Hin. unfold OMap.values, OMap.keys in *.
  apply in_map_iff in Hin as ([k r'] & Hr & Hin). simpl in Hr. subst r'.
  rewrite Forall_forall in Hkey.
  specialize (Hkey (k, r) ltac:(now apply list_elem_of_In)). simpl in Hkey.
  subst k. apply in_map_iff. exists (r_id r, r). now split.
Qed.

End CacheFacts.

(** X26. Round trip through the cache: once content is cached for a path
    under the region a request is routed to, [getCached] for that path and
    that request returns this content, its content type and the region id
    (as long as the entry is in the namespace). *)
Theorem cache_then_getCached (regions : Regions)
    (kv : gmap string (KVValue * option Z)) (path content contentType : string)
    (ttl : option Z) (etagNow cachedNow : Z) (cf : option string) (rnd : float)
    (d : RoutingDecision) :
  route regions cf rnd = Ok d →
  getCached regions
            (cache kv path (r_id (d_region d)) content contentType ttl
                   etagNow cachedNow)
            path cf rnd
  = Ok (Some {| c_content := Some content;
                c_contentType := Some contentType;
                c_regionId := r_id (d_region d) |}).
Proof.
  intros Hroute. rewrite (getCached_lookup _ _ _ _ _ d Hroute).
  unfold cache, kv_put. now rewrite lookup_insert_eq.
Qed.

Lemma cache_then_getCached_witness :
  getCached Examples.danglingRegions
            (cache ∅ "img/logo.png" "us" "PNG" "image/png" None 5 6)
            "img/logo.png" (Some "US") 0.5
  = Ok (Some {| c_content := Some "PNG"; c_contentType := Some "image/png";
                c_regionId := "us" |}).
Proof.
  apply (cache_then_getCached Examples.danglingRegions ∅ "img/logo.png"
           "PNG" "image/png" None 5 6 (Some "US") 0.5
           {| d_region := Examples.virginia;
              d_origin := Some (Examples.origin_ "us-2" 3 true 60 0);
              d_reason := Geo; d_fallback := false |}).
  reflexivity.
Defined.

(** X27. Cache partitions do not leak.  For a request routed to region [d],
    caching a path under any other region id leaves what [getCached]
    returns for that path unchanged, and caching another path under the
    region of [d] leaves it unchanged too. *)
Theorem cache_partitions (regions : Regions)
    (kv : gmap string (KVValue * option Z)) (path content contentType : string)
    (ttl : option Z) (etagNow cachedNow : Z) (cf : option string) (rnd : float)
    (d : RoutingDecision) :
  route regions cf rnd = Ok d →
  (∀ regionId,
     regionId ≠ r_id (d_region d) →
     getCached regions
               (cache kv path regionId content contentType ttl
                      etagNow cachedNow) path cf rnd
     = getCached regions kv path cf rnd) ∧
  (∀ path',
     path' ≠ path →
     getCached regions
               (cache kv path' (r_id (d_region d)) content contentType ttl
                      etagNow cachedNow) path cf rnd
     = getCached regions kv path cf rnd).
Proof.
  intros Hroute. split.
  - intros regionId Hne.
    rewrite !(getCached_lookup _ _ _ _ _ d Hroute).
    unfold cache, kv_put. rewrite lookup_insert_ne; [reflexivity|].
    intros E. now apply getCacheKey_region_inj in E.
  - intros path' Hne.
    rewrite !(getCached_lookup _ _ _ _ _ d Hroute).
    unfold cache, kv_put. rewrite lookup_insert_ne; [reflexivity|].
    intros E. now apply getCacheKey_path_inj in E.
Qed.

Lemma cache_partitions_witness :
  (∀ regionId,
     regionId ≠ "us" →
     getCached Examples.danglingRegions
               (cache ∅ "img/logo.png" regionId "PNG" "image/png" None 5 6)
               "img/logo.png" (Some "US") 0.5
     = getCached Examples.danglingRegions ∅ "img/logo.png" (Some "US")
                 0.5) ∧
  (∀ path',
     path' ≠ "img/logo.png" →
     getCached Examples.danglingRegions
               (cache ∅ path' "us" "PNG" "image/png" None 5 6)
               "img/logo.png" (Some "US") 0.5
     = getCached Examples.danglingRegions ∅ "img/logo.png" (Some "US")
                 0.5).
Proof.
  apply (cache_partitions Examples.danglingRegions ∅ "img/logo.png"
           "PNG" "image/png" None 5 6 (Some "US") 0.5
           {| d_region := Examples.virginia;
              d_origin := Some (Examples.origin_ "us-2" 3 true 60 0);
              d_reason := Geo; d_fallback := false |}).
  reflexivity.
Defined.

(** X28. [purge] reports one purge per registered region, whether or not an
    entry existed; it leaves every key that is not the path's key for a
    registered region as it was; and once it has run on a directory keyed by
    id, [getCached] for that path misses for every request that can be
    routed (a routing failure still propagates). *)
Theorem purge_invalidates (regions : Regions)
    (kv : gmap string (KVValue * option Z)) (path : string) :
  keyedById regions →
  (purge regions kv path).2 = Z.of_nat (length regions) ∧
  (∀ key,
     (∀ id, In id (OMap.keys regions) → key ≠ getCacheKey path id) →
     (purge regions kv path).1 !! key = kv !! key) ∧
  ∀ cf rnd,
    getCached regions (purge regions kv path).1 path cf rnd
    = match route regions cf rnd with
      | Ok _ => Ok None
      | Throw e => Throw e
      end.
Proof.
  intros Hkeyed. unfold purge.
  destruct (purgeLoop_spec path (OMap.keys regions) kv 0)
    as (Hn & Hdel & _ & Hframe).
  split; [rewrite Hn; unfold OMap.keys; rewrite length_map; lia|].
  split; [exact Hframe|].
  intros cf rnd. destruct (route regions cf rnd) as [d|e] eqn:Hroute.
  - rewrite (getCached_lookup _ _ _ _ _ d Hroute).
    rewrite Hdel; [reflexivity|].
    apply registered_id; [exact Hkeyed|].
    eapply route_region_registered. exact Hroute.
  - unfold getCached. now rewrite Hroute.
Qed.

Lemma purge_invalidates_witness :
  (purge Examples.danglingRegions
         (cache ∅ "img/logo.png" "us" "PNG" "image/png" None 5 6)
         "img/logo.png").2
    = Z.of_nat (length Examples.danglingRegions) ∧
  (∀ key,
     (∀ id, In id (OMap.keys Examples.danglingRegions) →
            key ≠ getCacheKey "img/logo.png" id) →
     (purge Examples.danglingRegions
            (cache ∅ "img/logo.png" "us" "PNG" "image/png" None 5 6)
            "img/logo.png").1 !! key
     = cache ∅ "img/logo.png" "us" "PNG" "image/png" None 5 6 !! key) ∧
  ∀ cf rnd,
    getCached Examples.danglingRegions
              (purge Examples.danglingRegions
                     (cache ∅ "img/logo.png" "us" "PNG" "image/png" None 5 6)
                     "img/logo.png").1 "img/logo.png" cf rnd
    = match route Examples.danglingRegions cf rnd with
      | Ok _ => Ok None
      | Throw e => Throw e
      end.
Proof.
  apply (purge_invalidates Examples.danglingRegions
           (cache ∅ "img/logo.png" "us" "PNG" "image/png" None 5 6)
           "img/logo.png").
  apply (loadAll_keyed [Examples.paris; Examples.virginia; Examples.tokyo] []
                       keyedById_nil).
Defined.

(** X29. [warmCache] returns the ids of the directory in order, and once it
    has run on a directory keyed by id, [getCached] for that path returns
    the warmed content and content type for every request that can be
    routed, whichever region the request is routed to. *)
Theorem warmCache_serves_all (clock : nat → Z * Z) (regions : Regions)
    (kv : gmap string (KVValue * option Z)) (path content contentType : string)
    (ttl : option Z) :
  keyedById regions →
  (warmCache clock regions kv path content contentType ttl).2
    = OMap.keys regions ∧
  ∀ cf rnd,
    getCached regions
              (warmCache clock regions kv path content contentType ttl).1
              path cf rnd
    = match route regions cf rnd with
      | Ok d => Ok (Some {| c_content := Some content;
                            c_contentType := Some contentType;
                            c_regionId := r_id (d_region d) |})
      | Throw e => Throw e
      end.
Proof.
  intros Hkeyed. split; [reflexivity|].
  intros cf rnd. destruct (route regions cf rnd) as [d|e] eqn:Hroute.
  - rewrite (getCached_lookup _ _ _ _ _ d Hroute). unfold warmCache. cbn [fst].
    destruct (warmLoop_holds clock path content contentType ttl
                (OMap.keys regions) 0 kv) as [_ Hnew].
    destruct (Hnew (r_id (d_region d))) as (etag & at_ & ->); [|reflexivity].
    apply registered_id; [exact Hkeyed|].
    eapply route_region_registered. exact Hroute.
  - unfold getCached. now rewrite Hroute.
Qed.

Lemma warmCache_serves_all_witness :
  (warmCache MoreExamples.noon Examples.danglingRegions ∅ "index.html"
             "<html>" "text/html" None).2
    = OMap.keys Examples.danglingRegions ∧
  ∀ cf rnd,
    getCached Examples.danglingRegions
              (warmCache MoreExamples.noon Examples.danglingRegions ∅
                         "index.html" "<html>" "text/html" None).1
              "index.html" cf rnd
    = match route Examples.danglingRegions cf rnd with
      | Ok d => Ok (Some {| c_content := Some "<html>";
                            c_contentType := Some "text/html";
                            c_regionId := r_id (d_region d) |})
      | Throw e => Throw e
      end.
Proof.
  apply (warmCache_serves_all MoreExamples.noon Examples.danglingRegions ∅
           "index.html" "<html>" "text/html" None).
  apply (loadAll_keyed [Examples.paris; Examples.virginia; Examples.tokyo] []
                       keyedById_nil).
Defined.

(** X30. Cache keys are unique per (path, region) as long as region ids
    contain no [':']: two keys are then equal only for equal paths and equal
    regions.  With a [':'] in a region id they can coincide: the key of path
    [p] in region [r:q] is the key of path [q:p] in region [r]. *)
Theorem getCacheKey_pairs :
  (∀ p1 r1 p2 r2,
     colonFree r1 = true → colonFree r2 = true →
     getCacheKey p1 r1 = getCacheKey p2 r2 → p1 = p2 ∧ r1 = r2) ∧
  (∀ p q r,
     getCacheKey p (r +:+ ":" +:+ q) = getCacheKey (q +:+ ":" +:+ p) r).
Proof.
  split.
  - intros p1 r1 p2 r2 H1 H2 H. unfold getCacheKey in H.
    apply (String.app_inj "cache:") in H.
    destruct (colonFree_split r1 r2 p1 p2 H1 H2 H) as [-> ->]. now split.
  - intros p q r. unfold getCacheKey. f_equal.
    now rewrite !append_assoc.
Qed.

Lemma getCacheKey_pairs_witness :
  "a.css" = "a.css" ∧ "eu-west" = "eu-west".
Proof.
  apply (proj1 getCacheKey_pairs "a.css" "eu-west" "a.css" "eu-west");
    reflexivity.
Defined.
